(** * mini_evm: a shallow embedding of [src/vm.py] and its properties

    The development follows the source file top to bottom: the text
    primitives the interpreter relies on ([str.strip], [str.split],
    [str.upper], [int]), the [Contract] / [World] registry, the frame
    interpreter [_exec_contract_frame] and the transaction coordinator
    [execute_transaction].

    Conventions.
    - Python integers are unbounded: they are [Z].
    - Python lists are kept in their own order: [stack.append v] is
      [s ++ [v]] and [stack.pop()] removes the last element.
    - Python dicts are [gmap]s.
    - The staged snapshot and the call trace are objects shared by all
      frames of one transaction and mutated in place; they are threaded
      as an explicit state, which survives a raised exception.
    - Instruction text is ASCII: code points above 127 are left alone by
      [upper] and are not white space. The interpreter's configurable
      limit on the length of decimal literals is not modelled. *)

From Stdlib Require Import ZArith Lia Ascii String PrimFloat.
From stdpp Require Import gmap strings list fin_maps.

Local Open Scope Z_scope.

(** ** Text primitives *)

Module Text.

(** [str.isspace] on one ASCII character: TAB, LF, VT, FF, CR, the four
    separators FS, GS, RS, US, and the space. *)
Definition isspace (c : Ascii.ascii) : bool :=
  let n := Ascii.N_of_ascii c in
  ((9 <=? n)%N && (n <=? 13)%N) || ((28 <=? n)%N && (n <=? 32)%N).

Fixpoint lstrip (s : string) : string :=
  match s with
  | EmptyString => EmptyString
  | String c r => if isspace c then lstrip r else s
  end.

Fixpoint rstrip (s : string) : string :=
  match s with
  | EmptyString => EmptyString
  | String c r =>
      match rstrip r with
      | EmptyString => if isspace c then EmptyString else String c EmptyString
      | r' => String c r'
      end
  end.

(** [s.strip()] *)
Definition strip (s : string) : string := rstrip (lstrip s).

Definition starts_word (s : string) : bool :=
  match s with
  | EmptyString => false
  | String c _ => negb (isspace c)
  end.

(** [s.split()]: the maximal runs of characters that are not white space. *)
Fixpoint split (s : string) : list string :=
  match s with
  | EmptyString => []
  | String c r =>
      if isspace c then split r
      else if starts_word r then
        match split r with
        | w :: ws => String c w :: ws
        | [] => [String c EmptyString]
        end
      else String c EmptyString :: split r
  end.

Definition upper_char (c : Ascii.ascii) : Ascii.ascii :=
  let n := Ascii.N_of_ascii c in
  if ((97 <=? n)%N && (n <=? 122)%N)%bool then Ascii.ascii_of_N (n - 32) else c.

(** [s.upper()] *)
Fixpoint upper (s : string) : string :=
  match s with
  | EmptyString => EmptyString
  | String c r => String (upper_char c) (upper r)
  end.

Definition digit_of (c : Ascii.ascii) : option Z :=
  let n := Ascii.N_of_ascii c in
  if ((48 <=? n)%N && (n <=? 57)%N)%bool then Some (Z.of_N (n - 48)) else None.

(** The digits of a decimal literal: at least one digit, and single
    underscores allowed between two digits only. [prev] tells whether the
    character just read was a digit. *)
Fixpoint digits (acc : Z) (prev : bool) (s : string) : option Z :=
  match s with
  | EmptyString => if prev then Some acc else None
  | String c r =>
      match digit_of c with
      | Some d => digits (10 * acc + d) true r
      | None =>
          if (Ascii.eqb c "_"%char && prev)%bool then digits acc false r else None
      end
  end.

(** [int(s)] for a token without white space: [None] stands for the
    [ValueError] the built-in raises. *)
Definition int (s : string) : option Z :=
  match s with
  | String "+"%char r => digits 0 false r
  | String "-"%char r => Z.opp <$> digits 0 false r
  | _ => digits 0 false s
  end.

(** Only white space, or nothing at all. *)
Fixpoint allspace (s : string) : bool :=
  match s with
  | EmptyString => true
  | String c r => isspace c && allspace r
  end.

End Text.

(** ** Contracts and the world registry *)

Record Contract := mkContract {
  address : string;
  code : list string;
  storage : gmap string Z
}.

(** [World.contracts]: address -> Contract *)
Abbreviation World := (gmap string Contract).

Definition set_storage (c : Contract) (s : gmap string Z) : Contract :=
  {| address := address c; code := code c; storage := s |}.

(** Exceptions that can leave the interpreter. [VMExecutionError] carries
    one constructor per message raised in the source. *)
Inductive Message :=
  | ContractNotFoundMsg (addr : string)   (* "Contract {addr} not found" *)
  | OutOfGasMsg                           (* "Out of gas" *)
  | PushMissingArgument                   (* "PUSH missing argument" *)
  | PopFromEmptyStack                     (* "POP from empty stack" *)
  | NeedsTwoOperands (op : string)        (* "{op} needs two operands" *)
  | DivisionByZeroMsg                     (* "Division by zero" *)
  | LoadMissingKey                        (* "LOAD missing key" *)
  | StoreMissingKey                       (* "STORE missing key" *)
  | StoreNeedsValue                       (* "STORE needs a value on stack" *)
  | LogEmptyStack                         (* "LOG empty stack" *)
  | CallNeedsOperands                     (* "CALL needs addr, gas, nargs" *)
  | InsufficientGasForCallMsg             (* "Insufficient gas for CALL" *)
  | NotEnoughArgsForCall                  (* "Not enough args for CALL" *)
  | UnknownOp (op : string).              (* "Unknown op {op}" *)

Inductive Exception :=
  | VMExecutionError (m : Message)
  | ValueError        (* raised by [int] and by [World.deploy] *)
  | KeyError          (* a dict subscript on a missing key *)
  | IndexError        (* a list subscript or pop out of range *)
  | RecursionError.   (* the native call stack is exhausted *)

(** The error kinds of the specification. *)
Inductive ErrorKind :=
  | ContractNotFound | MalformedInstruction | StackUnderflow
  | DivisionByZero | UnknownOpcode | OutOfGas
  | InsufficientGasForCall | InsufficientArguments.

Definition kind_of (m : Message) : ErrorKind :=
  match m with
  | ContractNotFoundMsg _ => ContractNotFound
  | OutOfGasMsg => OutOfGas
  | PushMissingArgument | LoadMissingKey | StoreMissingKey
  | CallNeedsOperands => MalformedInstruction
  | PopFromEmptyStack | NeedsTwoOperands _ | StoreNeedsValue
  | LogEmptyStack => StackUnderflow
  | DivisionByZeroMsg => DivisionByZero
  | InsufficientGasForCallMsg => InsufficientGasForCall
  | NotEnoughArgsForCall => InsufficientArguments
  | UnknownOp _ => UnknownOpcode
  end.

Inductive Result (A : Type) :=
  | Ok (a : A)
  | Raise (e : Exception).
Arguments Ok {A} a.
Arguments Raise {A} e.

(** [World.deploy] *)
Definition deploy (w : World) (addr : string) (c : list string) : Result World :=
  match w !! addr with
  | Some _ => Raise ValueError
  | None => Ok (<[addr := mkContract addr c ∅]> w)
  end.

(** [World.get_contract]: [dict.get], so a missing address yields [None]. *)
Definition get_contract (w : World) (addr : string) : option Contract :=
  w !! addr.

(** ** Shared transaction state and frame-local state *)

(** Entries of the call trace. *)
Inductive Event :=
  | LogEvent (contract : string) (value : Z)
  | CallEvent (caller callee : string) (gas_provided gas_used returned : Z).

(** The two objects every frame of a transaction shares. *)
Record Shared := mkShared {
  snapshot : gmap string (gmap string Z);
  call_trace : list Event
}.

(** A computation that reads and mutates the shared objects and either
    returns or raises; the mutations done before a raise stay. *)
Definition M (A : Type) : Type := Shared → Shared * Result A.

Definition ret {A} (a : A) : M A := λ st, (st, Ok a).
Definition raise {A} (e : Exception) : M A := λ st, (st, Raise e).
Definition bind {A B} (m : M A) (k : A → M B) : M B :=
  λ st, match m st with
        | (st', Ok a) => k a st'
        | (st', Raise e) => (st', Raise e)
        end.

Notation "x <- m ;; k" := (bind m (λ x, k))
  (at level 100, m at next level, right associativity).

(** The locals of one activation of [_exec_contract_frame]. *)
Record Frame := mkFrame {
  stack : list Z;
  gas_remaining : Z;
  op_counts : gmap string Z
}.

(** [stack.pop()] on a Python list: the last element leaves. *)
Definition pop (s : list Z) : option (Z * list Z) :=
  match rev s with
  | [] => None
  | v :: r => Some (v, rev r)
  end.

(** [[stack.pop() for _ in range(n)]]: the popped values in popping order,
    and what is left of the stack. *)
Fixpoint pop_n (n : nat) (s : list Z) : list Z * list Z :=
  match n with
  | O => ([], s)
  | S n' =>
      match pop s with
      | Some (v, s') => let (vs, s'') := pop_n n' s' in (v :: vs, s'')
      | None => ([], s)
      end
  end.

(** [stack.pop() if stack else 0] *)
Definition pop_or_zero (s : list Z) : Z * list Z :=
  match pop s with
  | Some (v, s') => (v, s')
  | None => (0, s)
  end.

(** ** The gas meter *)

Definition OPCOST : gmap string Z :=
  list_to_map
    [("PUSH", 1); ("POP", 1);
     ("ADD", 3); ("SUB", 3); ("MUL", 5); ("DIV", 5);
     ("LOAD", 5); ("STORE", 20);
     ("CALL", 10); ("RETURN", 0);
     ("LOG", 1)].

(** [self.OPCOST.get(op, 1)] *)
Definition cost (op : string) : Z := default 1 (OPCOST !! op).

(** [d[k] += v] on a [defaultdict(int)] *)
Definition bump (k : string) (v : Z) (d : gmap string Z) : gmap string Z :=
  <[k := default 0 (d !! k) + v]> d.

(** [for k, v in src.items(): d[k] += v] *)
Definition merge_counts (d src : gmap string Z) : gmap string Z :=
  map_fold bump d src.

(** The local helper [charge]: the debit and the usage count come first,
    the test after. *)
Definition charge (op : string) (fr : Frame) : Result Frame :=
  let g := gas_remaining fr - cost op in
  let fr' := mkFrame (stack fr) g (bump op 1 (op_counts fr)) in
  if decide (g < 0) then Raise (VMExecutionError OutOfGasMsg) else Ok fr'.

(** ** The opcode interpreter *)

Definition push (v : Z) (fr : Frame) : Frame :=
  mkFrame (stack fr ++ [v]) (gas_remaining fr) (op_counts fr).

Definition with_stack (s : list Z) (fr : Frame) : Frame :=
  mkFrame s (gas_remaining fr) (op_counts fr).

(** What one dispatched instruction does to the loop. *)
Inductive Flow :=
  | Next (fr : Frame)               (* fall through to [ip += 1] *)
  | Return (r : Z) (fr : Frame).    (* the [return] under [RETURN] *)

(** The type of [self._exec_contract_frame] once [self] and the two
    shared objects are taken out: address, caller, gas budget, stack. *)
Definition FrameFn : Type :=
  string → string → Z → list Z → M (Z * Z * gmap string Z).

Definition arith (op : string) (fr : Frame) : M Flow :=
  if decide (Z.of_nat (length (stack fr)) < 2) then
    raise (VMExecutionError (NeedsTwoOperands op))
  else
    match pop (stack fr) with
    | None => raise IndexError
    | Some (a, s1) =>
        match pop s1 with
        | None => raise IndexError
        | Some (b, s2) =>
            if decide (op = "ADD") then ret (Next (with_stack (s2 ++ [b + a]) fr))
            else if decide (op = "SUB") then ret (Next (with_stack (s2 ++ [b - a]) fr))
            else if decide (op = "MUL") then ret (Next (with_stack (s2 ++ [b * a]) fr))
            else if decide (op = "DIV") then
              if decide (a = 0) then raise (VMExecutionError DivisionByZeroMsg)
              else ret (Next (with_stack (s2 ++ [b `div` a]) fr))
            else ret (Next (with_stack s2 fr))
        end
    end.

(** [local_storage] is the very dict stored at [snapshot[contract_addr]]:
    reads and writes go through the shared snapshot. *)
Definition load (addr key : string) (fr : Frame) : M Flow :=
  λ st, match snapshot st !! addr with
        | None => (st, Raise KeyError)
        | Some sto => (st, Ok (Next (push (default 0 (sto !! key)) fr)))
        end.

Definition store (addr key : string) (fr : Frame) : M Flow :=
  match pop (stack fr) with
  | None => raise (VMExecutionError StoreNeedsValue)
  | Some (v, s') =>
      λ st, match snapshot st !! addr with
            | None => (st, Raise KeyError)
            | Some sto =>
                (mkShared (<[addr := <[key := v]> sto]> (snapshot st)) (call_trace st),
                 Ok (Next (with_stack s' fr)))
            end
  end.

Definition log (addr : string) (fr : Frame) : M Flow :=
  match pop (stack fr) with
  | None => raise (VMExecutionError LogEmptyStack)
  | Some (v, s') =>
      λ st, (mkShared (snapshot st) (call_trace st ++ [LogEvent addr v]),
             Ok (Next (with_stack s' fr)))
  end.

Definition record_call (addr callee : string) (gas_amount used r : Z) : M unit :=
  λ st, (mkShared (snapshot st)
                  (call_trace st ++ [CallEvent addr callee gas_amount used r]),
         Ok tt).

Definition call_op (call : FrameFn) (addr : string) (parts : list string)
    (fr : Frame) : M Flow :=
  match parts with
  | _ :: callee :: p2 :: p3 :: _ =>
      match Text.int p2 with
      | None => raise ValueError
      | Some gas_amount =>
          match Text.int p3 with
          | None => raise ValueError
          | Some nargs =>
              if decide (gas_remaining fr < gas_amount) then
                raise (VMExecutionError InsufficientGasForCallMsg)
              else if decide (Z.of_nat (length (stack fr)) < nargs) then
                raise (VMExecutionError NotEnoughArgsForCall)
              else
                let (popped, s') := pop_n (Z.to_nat nargs) (stack fr) in
                let args := rev popped in
                let reserved := gas_remaining fr - gas_amount in
                child <- call callee addr gas_amount args ;;
                let '(r, child_gas_used, child_op_counts) := child in
                let g := reserved + (gas_amount - child_gas_used) in
                let counts := merge_counts (op_counts fr) child_op_counts in
                _ <- record_call addr callee gas_amount child_gas_used r ;;
                ret (Next (mkFrame (s' ++ [r]) g counts))
          end
      end
  | _ => raise (VMExecutionError CallNeedsOperands)
  end.

(** The [if op == ... elif ...] chain, entered after [charge(op)]. *)
Definition dispatch (call : FrameFn) (addr op : string) (parts : list string)
    (fr : Frame) : M Flow :=
  if decide (op = "PUSH") then
    match parts with
    | _ :: p1 :: _ =>
        match Text.int p1 with
        | None => raise ValueError
        | Some val => ret (Next (push val fr))
        end
    | _ => raise (VMExecutionError PushMissingArgument)
    end
  else if decide (op = "POP") then
    match pop (stack fr) with
    | None => raise (VMExecutionError PopFromEmptyStack)
    | Some (_, s') => ret (Next (with_stack s' fr))
    end
  else if decide (op ∈ ["ADD"; "SUB"; "MUL"; "DIV"]) then arith op fr
  else if decide (op ∈ ["LOAD"; "SLOAD"]) then
    match parts with
    | _ :: key :: _ => load addr key fr
    | _ => raise (VMExecutionError LoadMissingKey)
    end
  else if decide (op ∈ ["STORE"; "SSTORE"]) then
    match parts with
    | _ :: key :: _ => store addr key fr
    | _ => raise (VMExecutionError StoreMissingKey)
    end
  else if decide (op = "LOG") then log addr fr
  else if decide (op = "CALL") then call_op call addr parts fr
  else if decide (op = "RETURN") then
    let (r, s') := pop_or_zero (stack fr) in ret (Return r (with_stack s' fr))
  else raise (VMExecutionError (UnknownOp op)).

(** One non-blank line: tokenise, charge, dispatch. *)
Definition step (call : FrameFn) (addr instr : string) (fr : Frame) : M Flow :=
  match Text.split instr with
  | [] => raise IndexError
  | (p0 :: _) as parts =>
      let op := Text.upper p0 in
      match charge op fr with
      | Raise e => raise e
      | Ok fr1 => dispatch call addr op parts fr1
      end
  end.

(** The [while ip < len(code)] loop. [ip] only ever grows by one, so the
    loop is a recursion on the lines still to be run, [code[ip:]]. It
    yields the returned value and the locals at the point of return. *)
Fixpoint run (call : FrameFn) (addr : string) (rest : list string) (fr : Frame)
    : M (Z * Frame) :=
  match rest with
  | [] =>
      let (r, s') := pop_or_zero (stack fr) in ret (r, with_stack s' fr)
  | line :: rest' =>
      let instr := Text.strip line in
      if decide (instr = "") then run call addr rest' fr
      else
        λ st, match step call addr instr fr st with
              | (st', Raise e) => (st', Raise e)
              | (st', Ok (Return r fr')) => (st', Ok (r, fr'))
              | (st', Ok (Next fr')) => run call addr rest' fr' st'
              end
  end.

(** The body of [VM._exec_contract_frame], with the recursive reference
    [self._exec_contract_frame] taken as [call]. *)
Definition frame_body (call : FrameFn) (w : World) : FrameFn :=
  λ contract_addr caller gas_limit stk,
    match w !! contract_addr with
    | None => raise (VMExecutionError (ContractNotFoundMsg contract_addr))
    | Some contract =>
        λ st, match snapshot st !! contract_addr with
              | None => (st, Raise KeyError)
              | Some _ =>
                  (out <- run call contract_addr (code contract)
                              (mkFrame stk gas_limit ∅) ;;
                   let '(r, fr) := out in
                   ret (r, gas_limit - gas_remaining fr, op_counts fr)) st
              end
    end.

(** [VM._exec_contract_frame]. The recursion through [CALL] is native
    recursion: [fuel] is the number of frames the native call stack
    still allows, and a call made when none is left raises
    [RecursionError], which no handler of the source catches.
    [frame_fuel_enough] below shows that a stack of [gas_limit + 1]
    frames is never exhausted. *)
Fixpoint _exec_contract_frame (fuel : nat) (w : World) : FrameFn :=
  match fuel with
  | O => λ _ _ _ _, raise RecursionError
  | S fuel' => frame_body (_exec_contract_frame fuel' w) w
  end.

(** ** The transaction coordinator *)

(** The dict returned by [execute_transaction]; its keys ["return"],
    ["op_counts"] and ["call_trace"] are the fields [return_value],
    [res_op_counts] and [res_call_trace]. *)
Record ExecutionResult := mkResult {
  success : bool;
  return_value : option Z;
  gas_used : Z;
  res_op_counts : gmap string Z;
  res_call_trace : list Event;
  duration_s : float
}.

(** [{addr: dict(c.storage) for addr, c in self.world.contracts.items()}] *)
Definition take_snapshot (w : World) : gmap string (gmap string Z) :=
  storage <$> w.

(** [for addr in snapshot: self.world.contracts[addr].storage = snapshot[addr]].
    An address of the snapshot is always an address of the world, so the
    subscript in the loop never fails and is an [alter]. *)
Definition commit (w : World) (snap : gmap string (gmap string Z)) : World :=
  map_fold (λ addr sto w', alter (λ c, set_storage c sto) addr w') w snap.

(** Depth of native recursion that is always enough: every [CALL] costs
    the caller 10 before it hands over at most what is left. *)
Definition depth_bound (gas_limit : Z) : nat := S (Z.to_nat gas_limit).

(** [VM.execute_transaction] run with [fuel] levels of native recursion.
    [start] and [stop] are the two readings of [time.perf_counter()]. The
    result is the world afterwards and either the returned record or the
    exception that escaped. *)
Definition execute_transaction_at (fuel : nat) (w : World)
    (to_addr caller : string) (gas_limit : Z) (input_args : list Z)
    (start stop : float) : World * Result ExecutionResult :=
  let st0 := mkShared (take_snapshot w) [] in
  match _exec_contract_frame fuel w to_addr caller gas_limit input_args st0 with
  | (st, Ok (r, used, counts)) =>
      (commit w (snapshot st),
       Ok (mkResult true (Some r) used (merge_counts ∅ counts)
                    (call_trace st) (stop - start)%float))
  | (st, Raise (VMExecutionError _)) =>
      (w, Ok (mkResult false None gas_limit (merge_counts ∅ ∅)
                       (call_trace st) (stop - start)%float))
  | (_, Raise e) => (w, Raise e)
  end.

(** [VM.execute_transaction] on a native stack that allows
    [depth_bound gas_limit] frames, which the gas limit can never
    exhaust; [execute_transaction_at] is the run on a stack of any depth,
    a shallower one included. *)
Definition execute_transaction (w : World) (to_addr caller : string)
    (gas_limit : Z) (input_args : list Z) (start stop : float)
    : World * Result ExecutionResult :=
  execute_transaction_at (depth_bound gas_limit) w to_addr caller gas_limit
    input_args start stop.

(** ** The demonstration contracts of the repository *)

Definition contract_a_code : list string :=
  ["LOAD counter"; "ADD"; "STORE counter"; "LOAD counter"; "RETURN"].
Definition contract_b_code : list string :=
  ["PUSH 2"; "CALL A 200 1"; "PUSH 10"; "MUL"; "STORE myvalue"; "LOAD myvalue"; "RETURN"].
Definition demo_world : World :=
  <["B" := mkContract "B" contract_b_code ∅]> (<["A" := mkContract "A" contract_a_code ∅]> ∅).

(** ** Worlds used as concrete inputs *)

Definition world_of (cs : list (string * list string)) : World :=
  foldl (λ w '(addr, c), match deploy w addr c with Ok w' => w' | Raise _ => w end)
        ∅ cs.

Definition bad_push_world : World := world_of [("P", ["PUSH abc"])].
Definition bad_call_world : World := world_of [("C", ["PUSH 1"; "CALL C lots 0"])].
Definition logging_world : World :=
  world_of [("A", contract_a_code);
            ("F", ["PUSH 2"; "CALL A 200 1"; "LOG"; "POP"])].
Definition failing_world : World :=
  world_of [("D", ["PUSH 5"; "STORE x"; "PUSH 1"; "PUSH 0"; "DIV"]);
            ("E", ["PUSH 9"; "STORE y"; "CALL D 100 0"; "RETURN"])].
Definition negative_gas_world : World :=
  world_of [("A0", []); ("B0", ["CALL A0 -5 0"])].

(** ** Notions used in the statements *)

Definition frame_of (fl : Flow) : Frame :=
  match fl with
  | Next fr => fr
  | Return _ fr => fr
  end.

(** What a nested call leaves behind, given what the callee did. *)
Definition after_call (addr callee : string) (a : Z) (fr : Frame)
    (stc : Shared) (resc : Result (Z * Z * gmap string Z))
    (st' : Shared) (res : Result Flow) : Prop :=
  match resc with
  | Raise e => st' = stc ∧ res = Raise e
  | Ok (r, u, c) =>
      st' = mkShared (snapshot stc)
                     (call_trace stc ++ [CallEvent addr callee a u r]) ∧
      ∃ s', res = Ok (Next (mkFrame (s' ++ [r])
                                    (gas_remaining fr - a + (a - u))
                                    (merge_counts (op_counts fr) c)))
  end.

(** A [call] event never reports negative gas, nor more than a
    non-negative provision. *)
Definition event_ok (e : Event) : Prop :=
  match e with
  | LogEvent _ _ => True
  | CallEvent _ _ provided used _ => 0 ≤ used ≤ Z.max 0 provided
  end.

(** What every activation guarantees, whatever its outcome: the trace
    only grows, and by well-formed events; the snapshot keeps its
    addresses; gas used on return is between 0 and the budget; a depth
    of [n] is enough for a budget below [n]; and no subscript fails. *)
Definition frame_spec (n : nat) (D : gset string) (f : FrameFn) : Prop :=
  ∀ addr caller g stk st st' res,
    f addr caller g stk st = (st', res) →
    (∃ new, call_trace st' = call_trace st ++ new ∧ Forall event_ok new) ∧
    dom (snapshot st') = dom (snapshot st) ∧
    (∀ r u c, res = Ok (r, u, c) → 0 ≤ u ≤ Z.max 0 g) ∧
    ((Z.to_nat g < n)%nat → res ≠ Raise RecursionError) ∧
    (D ⊆ dom (snapshot st) → res ≠ Raise KeyError) ∧
    res ≠ Raise IndexError.

Definition refines (f1 f2 : FrameFn) : Prop :=
  ∀ addr caller g stk st st' res,
    f1 addr caller g stk st = (st', res) →
    res ≠ Raise RecursionError →
    f2 addr caller g stk st = (st', res).

(** Two outcomes that agree on everything but the measured duration. *)
Definition same_but_duration (x y : Result ExecutionResult) : Prop :=
  match x, y with
  | Ok r1, Ok r2 =>
      success r1 = success r2 ∧ return_value r1 = return_value r2 ∧
      gas_used r1 = gas_used r2 ∧ res_op_counts r1 = res_op_counts r2 ∧
      res_call_trace r1 = res_call_trace r2
  | Raise e1, Raise e2 => e1 = e2
  | _, _ => False
  end.

(** A transaction has failed when it raised or returned [success=false]. *)
Definition failed (out : Result ExecutionResult) : Prop :=
  match out with
  | Ok r => success r = false
  | Raise _ => True
  end.

(** A line the loop skips without charging. *)
Definition blank (line : string) : Prop := Text.strip line = EmptyString.

#[local] Instance blank_dec line : Decision (blank line) :=
  decide (Text.strip line = EmptyString).

(** ** The driver of the demonstration, [demo_mini_evm.py] *)

(** One entry of the list [txs]. *)
Record Tx := mkTx {
  tx_from : string;
  tx_to : string;
  tx_gas : Z;
  tx_args : list Z
}.

(** The loop [for tx in txs: res = vm.execute_transaction(...);
    results.append({"tx": tx, "res": res})]. Each transaction comes with
    the two clock readings of its run; an exception that escapes
    [execute_transaction] ends the script there. *)
Fixpoint run_txs (w : World) (txs : list (Tx * (float * float)))
    : World * Result (list (Tx * ExecutionResult)) :=
  match txs with
  | [] => (w, Ok [])
  | (tx, (t0, t1)) :: rest =>
      match execute_transaction w (tx_to tx) (tx_from tx) (tx_gas tx)
              (tx_args tx) t0 t1 with
      | (w', Raise e) => (w', Raise e)
      | (w', Ok res) =>
          match run_txs w' rest with
          | (w'', Ok results) => (w'', Ok ((tx, res) :: results))
          | (w'', Raise e) => (w'', Raise e)
          end
      end
  end.

(** [gas_used = [r["res"]["gas_used"] for r in results]] *)
Definition gas_used_list (results : list (Tx * ExecutionResult)) : list Z :=
  (λ r, gas_used r.2) <$> results.

(** [for r in results: for k, v in r["res"]["op_counts"].items():
    op_counts[k] += v], from an empty [defaultdict(int)]. *)
Definition aggregate_op_counts (results : list (Tx * ExecutionResult))
    : gmap string Z :=
  foldl (λ acc r, merge_counts acc (res_op_counts r.2)) ∅ results.

(** [ev["type"] == "call"] *)
Definition is_call (e : Event) : bool :=
  match e with
  | CallEvent _ _ _ _ _ => true
  | LogEvent _ _ => false
  end.

(** The list [events]: the call events of all results, in order. *)
Definition call_events (results : list (Tx * ExecutionResult)) : list Event :=
  concat ((λ r, List.filter is_call (res_call_trace r.2)) <$> results).

(** [{addr: c.storage for addr, c in world.contracts.items()}] *)
Definition storage_snapshot (w : World) : gmap string (gmap string Z) :=
  storage <$> w.

(** ** Further notions used in the statements *)

(** The price of a table of opcode counts at the rates of [OPCOST]. *)
Definition total_cost (counts : gmap string Z) : Z :=
  map_fold (λ op n acc, acc + cost op * n) 0 counts.

(** A token: not empty, and free of white space. *)
Fixpoint nospace (s : string) : bool :=
  match s with
  | EmptyString => true
  | String c r => negb (Text.isspace c) && nospace r
  end.

Definition is_token (s : string) : Prop := s ≠ EmptyString ∧ nospace s = true.

(** The locals once [charge(op)] has gone through. *)
Definition charged (op : string) (fr : Frame) : Frame :=
  mkFrame (stack fr) (gas_remaining fr - cost op) (bump op 1 (op_counts fr)).

(** The opcode names the dispatch chain knows. *)
Definition known_ops : list string :=
  ["PUSH"; "POP"; "ADD"; "SUB"; "MUL"; "DIV"; "LOAD"; "SLOAD"; "STORE";
   "SSTORE"; "LOG"; "CALL"; "RETURN"].

(** [snapshot[addr].get(key)] on the shared state. *)
Definition staged (st : Shared) (addr key : string) : option Z :=
  snapshot st !! addr ≫= λ sto, sto !! key.


(** The sum of a list of integers. *)
Definition sum_list (l : list Z) : Z := foldr Z.add 0 l.

(** The gas limits of the transactions that failed. *)
Definition failed_limits (results : list (Tx * ExecutionResult)) : list Z :=
  (λ r, tx_gas r.1) <$> List.filter (λ r, negb (success r.2)) results.

(** ** Lemmas on the text primitives *)

Module TextFacts.
Import Text.

Lemma rstrip_empty s : rstrip s = EmptyString ↔ allspace s = true.
Proof.
  induction s as [|c r IH]; simpl; [done|].
  destruct (rstrip r) eqn:E, (isspace c); simpl; split; try done.
  - intros _. by apply IH.
  - intros H. apply IH in H. done.
Qed.

Lemma rstrip_allspace s : allspace (rstrip s) = true → rstrip s = EmptyString.
Proof.
  induction s as [|c r IH]; simpl; [done|].
  destruct (rstrip r) eqn:E.
  - destruct (isspace c) eqn:Ec; simpl; [done|]. by rewrite Ec.
  - simpl in *. intros [_ H]%andb_prop. by specialize (IH H).
Qed.

Lemma split_empty s : split s = [] ↔ allspace s = true.
Proof.
  induction s as [|c r IH]; simpl; [done|].
  destruct (isspace c); simpl; [done|].
  destruct (starts_word r); [destruct (split r)|]; done.
Qed.

(** A line that is not blank has an opcode token: [parts[0]] exists. *)
Lemma split_strip_nonempty line :
  strip line ≠ EmptyString → split (strip line) ≠ [].
Proof.
  unfold strip. intros Hne Hs. apply Hne.
  apply rstrip_allspace. by apply split_empty.
Qed.

End TextFacts.

(** ** Tokenising a line *)

Lemma lstrip_allspace s : Text.allspace (Text.lstrip s) = Text.allspace s.
Proof.
  induction s as [|c r IH]; simpl; [done|].
  destruct (Text.isspace c) eqn:Ec; simpl; [done|]. by rewrite Ec.
Qed.

Lemma split_lstrip s : Text.split (Text.lstrip s) = Text.split s.
Proof.
  induction s as [|c r IH]; simpl; [done|].
  destruct (Text.isspace c) eqn:Ec; simpl; [done|]. by rewrite Ec.
Qed.

Lemma rstrip_head r c' r' :
  Text.rstrip r = String c' r' → Text.starts_word (Text.rstrip r) = Text.starts_word r.
Proof.
  destruct r as [|c r0]; simpl; [done|].
  destruct (Text.rstrip r0); [destruct (Text.isspace c) eqn:Ec|];
    intros Heq; simplify_eq; simpl; by rewrite ?Ec.
Qed.

Lemma allspace_not_word r : Text.allspace r = true → Text.starts_word r = false.
Proof. destruct r as [|c r]; simpl; [done|]. by intros [-> _]%andb_prop. Qed.

Lemma split_cons_eq c x y :
  Text.starts_word x = Text.starts_word y → Text.split x = Text.split y →
  Text.split (String c x) = Text.split (String c y).
Proof. simpl. by intros -> ->. Qed.

Lemma split_rstrip s : Text.split (Text.rstrip s) = Text.split s.
Proof.
  induction s as [|c r IH]; [done|].
  change (Text.rstrip (String c r))
    with (match Text.rstrip r with
          | EmptyString =>
              if Text.isspace c then EmptyString else String c EmptyString
          | r' => String c r'
          end).
  destruct (Text.rstrip r) as [|c' r'] eqn:Er.
  - apply TextFacts.rstrip_empty in Er as Hall.
    apply TextFacts.split_empty in Hall as Hnil.
    destruct (Text.isspace c) eqn:Ec; simpl; rewrite Ec; [by rewrite Hnil|].
    by rewrite allspace_not_word, Hnil.
  - pose proof (rstrip_head _ _ _ Er) as Hw. rewrite Er in Hw.
    by apply split_cons_eq.
Qed.

(** [instr.split()] does not see the white space that [strip] takes
    off: the tokens of the stripped line are the tokens of the line. *)
Lemma split_strip line : Text.split (Text.strip line) = Text.split line.
Proof. unfold Text.strip. by rewrite split_rstrip, split_lstrip. Qed.

Lemma tokens_not_blank line p ps : Text.split line = p :: ps → ¬ blank line.
Proof.
  intros Hs Hb. unfold blank in Hb.
  pose proof (split_strip line) as H. by rewrite Hb, Hs in H.
Qed.

(** ** Lemmas on the operand stack *)

Lemma pop_nil : pop [] = None.
Proof. done. Qed.

Lemma pop_snoc s v : pop (s ++ [v]) = Some (v, s).
Proof. unfold pop. rewrite rev_app_distr. simpl. by rewrite rev_involutive. Qed.

Lemma pop_Some s v s' : pop s = Some (v, s') → s = s' ++ [v].
Proof.
  unfold pop. destruct (rev s) as [|x r] eqn:E; intros H; simplify_eq.
  rewrite <- (rev_involutive s), E. done.
Qed.

Lemma pop_None s : pop s = None → s = [].
Proof.
  unfold pop. destruct (rev s) as [|x r] eqn:E; intros H; simplify_eq.
  by rewrite <- (rev_involutive s), E.
Qed.

Lemma pop_two (s : list Z) : (2 ≤ length s)%nat → ∃ s2 b a, s = s2 ++ [b; a].
Proof.
  intros Hlen. destruct (pop s) as [[a s1]|] eqn:E1.
  - apply pop_Some in E1 as ->. destruct (pop s1) as [[b s2]|] eqn:E2.
    + apply pop_Some in E2 as ->. exists s2, b, a. by rewrite <- app_assoc.
    + apply pop_None in E2 as ->. simpl in Hlen. lia.
  - apply pop_None in E1 as ->. simpl in Hlen. lia.
Qed.

(** Popping [n] values off a stack that holds at least [n] takes its last
    [n] elements, most recent first. *)
Lemma pop_n_spec n (s : list Z) :
  (n ≤ length s)%nat →
  pop_n n s = (rev (drop (length s - n) s), take (length s - n) s).
Proof.
  revert s. induction n as [|n IH]; intros s Hlen; simpl.
  - rewrite Nat.sub_0_r, drop_all, take_ge by lia. done.
  - destruct (pop s) as [[v s']|] eqn:E.
    + apply pop_Some in E as ->. rewrite length_app in *. simpl in *.
      rewrite IH by lia.
      replace (length s' + 1 - S n)%nat with (length s' - n)%nat by lia.
      rewrite drop_app_le, take_app_le by lia.
      by rewrite rev_app_distr.
    + apply pop_None in E as ->. simpl in Hlen. lia.
Qed.

(** ** Lemmas on the gas meter *)

Lemma cost_nonneg op : 0 ≤ cost op.
Proof.
  unfold cost. destruct (OPCOST !! op) as [v|] eqn:E; simpl; [|lia].
  assert (map_Forall (λ _ v, 0 ≤ v) OPCOST) as H.
  { apply map_Forall_to_list. vm_compute. repeat constructor; discriminate. }
  by apply (H op).
Qed.

Lemma cost_CALL : cost "CALL" = 10.
Proof. reflexivity. Qed.

Lemma charge_Ok op fr fr1 :
  charge op fr = Ok fr1 →
  stack fr1 = stack fr ∧ gas_remaining fr1 = gas_remaining fr - cost op ∧
  op_counts fr1 = bump op 1 (op_counts fr) ∧ 0 ≤ gas_remaining fr1.
Proof.
  unfold charge. case_decide; intros Hc; simplify_eq. simpl. repeat split. lia.
Qed.

Lemma charge_Raise op fr e :
  charge op fr = Raise e →
  e = VMExecutionError OutOfGasMsg ∧ gas_remaining fr - cost op < 0.
Proof. unfold charge. case_decide; intros Hc; by simplify_eq. Qed.

Lemma charge_CALL fr :
  10 ≤ gas_remaining fr →
  charge "CALL" fr =
  Ok (mkFrame (stack fr) (gas_remaining fr - 10) (bump "CALL" 1 (op_counts fr))).
Proof.
  intros Hg. unfold charge. rewrite cost_CALL. case_decide; [lia|done].
Qed.

Lemma bump_lookup k v d k' :
  default 0 (bump k v d !! k') =
  default 0 (d !! k') + (if decide (k = k') then v else 0).
Proof.
  unfold bump. rewrite lookup_insert. case_decide; subst; simpl; lia.
Qed.

Lemma bump_comm k1 v1 k2 v2 d :
  bump k1 v1 (bump k2 v2 d) = bump k2 v2 (bump k1 v1 d).
Proof.
  apply map_eq. intros k. unfold bump.
  rewrite !lookup_insert. repeat case_decide; subst; simpl; try done.
  f_equal. lia.
Qed.

(** Merging adds the counts opcode by opcode. *)
Lemma merge_counts_lookup d src k :
  default 0 (merge_counts d src !! k) =
  default 0 (d !! k) + default 0 (src !! k).
Proof.
  unfold merge_counts.
  induction src as [|i x m Hi Hfold IH] using map_first_key_ind.
  - rewrite map_fold_empty, lookup_empty. simpl. lia.
  - rewrite map_fold_insert_first_key by done.
    rewrite bump_lookup, IH, lookup_insert.
    case_decide; subst; simpl; [rewrite Hi; simpl|]; lia.
Qed.

(** ** One instruction, case by case *)

Ltac unfold_m := unfold bind, ret, raise, record_call in *; cbv beta in *.

(** Every opcode but [CALL] works on the frame and the shared objects
    alone. *)
Lemma dispatch_local call addr op parts fr st st' res :
  op ≠ "CALL" →
  dispatch call addr op parts fr st = (st', res) →
  dom (snapshot st') = dom (snapshot st) ∧
  (call_trace st' = call_trace st ∨
   ∃ v, call_trace st' = call_trace st ++ [LogEvent addr v]) ∧
  (∀ fl, res = Ok fl → gas_remaining (frame_of fl) = gas_remaining fr) ∧
  res ≠ Raise RecursionError ∧ res ≠ Raise IndexError ∧
  (res = Raise KeyError → snapshot st !! addr = None).
Proof.
  intros Hop. unfold dispatch, arith, load, store, log. unfold_m.
  intros H.
  repeat (case_decide || case_match); simplify_eq/=.
  all: try (exfalso;
    repeat match goal with
           | H : pop _ = Some _ |- _ => apply pop_Some in H
           | H : pop _ = None |- _ => apply pop_None in H
           end;
    destruct fr; simpl in *; subst; rewrite ?length_app in *; simpl in *; lia).
  all: repeat split;
    first [ done | by left | by right; eexists | by intros ? [= <-]
          | by apply dom_insert_lookup_L ].
Qed.

Lemma dispatch_CALL call addr parts fr st :
  dispatch call addr "CALL" parts fr st = call_op call addr parts fr st.
Proof. reflexivity. Qed.

Lemma call_op_cases call addr parts fr st st' res :
  call_op call addr parts fr st = (st', res) →
  (st' = st ∧
   (res = Raise (VMExecutionError CallNeedsOperands) ∨ res = Raise ValueError ∨
    res = Raise (VMExecutionError InsufficientGasForCallMsg) ∨
    res = Raise (VMExecutionError NotEnoughArgsForCall))) ∨
  (∃ callee a args stc resc,
      a ≤ gas_remaining fr ∧
      call callee addr a args st = (stc, resc) ∧
      after_call addr callee a fr stc resc st' res).
Proof.
  unfold call_op. unfold_m. intros H.
  repeat (case_decide || case_match); simplify_eq/=;
    try (left; split; [done|]; naive_solver).
  all: right; do 5 eexists; (split; [|split; [eassumption|]]);
    first [ lia | simpl; eauto ].
Qed.

(** One non-blank line, charged and dispatched: either an instruction
    local to the frame, or a [CALL] that reached the callee. *)
Lemma step_cases call addr instr fr st st' res :
  step call addr instr fr st = (st', res) →
  (dom (snapshot st') = dom (snapshot st) ∧
   (call_trace st' = call_trace st ∨
    ∃ v, call_trace st' = call_trace st ++ [LogEvent addr v]) ∧
   (∀ fl, res = Ok fl →
      0 ≤ gas_remaining (frame_of fl) ≤ gas_remaining fr) ∧
   res ≠ Raise RecursionError ∧
   (res = Raise IndexError → Text.split instr = []) ∧
   (res = Raise KeyError → snapshot st !! addr = None)) ∨
  (∃ callee a args stc resc,
      0 ≤ gas_remaining fr - 10 ∧ a ≤ gas_remaining fr - 10 ∧
      call callee addr a args st = (stc, resc) ∧
      match resc with
      | Raise e => st' = stc ∧ res = Raise e
      | Ok (r, u, c) =>
          st' = mkShared (snapshot stc)
                         (call_trace stc ++ [CallEvent addr callee a u r]) ∧
          ∃ fr', res = Ok (Next fr') ∧
                 gas_remaining fr' = gas_remaining fr - 10 - u
      end).
Proof.
  unfold step. destruct (Text.split instr) as [|p0 ps] eqn:Hs.
  { unfold_m. intros [= <- <-]. left. repeat split; auto; done. }
  destruct (charge (Text.upper p0) fr) as [fr1|e] eqn:Hc.
  - apply charge_Ok in Hc as (_ & Hg & _ & Hpos).
    pose proof (cost_nonneg (Text.upper p0)) as Hcost.
    destruct (decide (Text.upper p0 = "CALL")) as [Hop|Hop].
    + rewrite Hop in *. rewrite dispatch_CALL. rewrite cost_CALL in Hg.
      intros [(-> & Hres)|(callee & a & args & stc & resc & Ha & Hcall & Hafter)]%call_op_cases.
      * left. destruct Hres as [->|[->|[->| ->]]]; repeat split; auto; done.
      * right. exists callee, a, args, stc, resc.
        repeat split; [lia | lia | done |].
        destruct resc as [[[r u] c]|e]; simpl in *; [|done].
        destruct Hafter as (-> & s' & ->). split; [done|].
        eexists. split; [done|]. simpl. lia.
    + intros (Hdom & Htr & Hgas & Hrec & Hidx & Hkey)%dispatch_local; [|done].
      left. repeat split; auto; try done.
      * rewrite (Hgas fl) by done. lia.
      * rewrite (Hgas fl) by done. lia.
  - apply charge_Raise in Hc as [-> _]. unfold_m. intros [= <- <-].
    left. repeat split; auto; done.
Qed.

(** A well-formed [CALL] that passes both checks, in terms of what the
    callee does. *)
Lemma step_CALL call addr instr p0 callee p2 p3 more fr st gas_amount nargs :
  let k := (length (stack fr) - Z.to_nat nargs)%nat in
  Text.split instr = p0 :: callee :: p2 :: p3 :: more →
  Text.upper p0 = "CALL" →
  Text.int p2 = Some gas_amount →
  Text.int p3 = Some nargs →
  10 ≤ gas_remaining fr →
  gas_amount ≤ gas_remaining fr - 10 →
  nargs ≤ Z.of_nat (length (stack fr)) →
  step call addr instr fr st =
  match call callee addr gas_amount (drop k (stack fr)) st with
  | (stc, Ok (r, u, c)) =>
      (mkShared (snapshot stc)
                (call_trace stc ++ [CallEvent addr callee gas_amount u r]),
       Ok (Next (mkFrame (take k (stack fr) ++ [r])
                         (gas_remaining fr - 10 - gas_amount + (gas_amount - u))
                         (merge_counts (bump "CALL" 1 (op_counts fr)) c))))
  | (stc, Raise e) => (stc, Raise e)
  end.
Proof.
  intros k Hsplit Hop Hp2 Hp3 Hgas Hamount Hargs.
  unfold step. rewrite Hsplit, Hop, charge_CALL by done.
  rewrite dispatch_CALL. unfold call_op. rewrite Hp2, Hp3. simpl.
  rewrite decide_False by lia. rewrite decide_False by lia.
  rewrite pop_n_spec by lia. fold k. rewrite rev_involutive.
  unfold_m. by destruct (call _ _ _ _ _) as [stc [[[r u] c]|e]].
Qed.

(** ** Invariants of a frame *)

Section run_invariants.
Variables (call : FrameFn) (n : nat) (D : gset string).
Hypothesis Hcall : frame_spec n D call.
Variables (addr : string) (glimit : Z).

Lemma run_spec rest fr st st' res :
  run call addr rest fr st = (st', res) →
  Z.min glimit 0 ≤ gas_remaining fr ≤ glimit →
  (∃ new, call_trace st' = call_trace st ++ new ∧ Forall event_ok new) ∧
  dom (snapshot st') = dom (snapshot st) ∧
  (∀ r fr', res = Ok (r, fr') →
     Z.min glimit 0 ≤ gas_remaining fr' ≤ glimit) ∧
  ((Z.to_nat glimit ≤ n)%nat → res ≠ Raise RecursionError) ∧
  (D ⊆ dom (snapshot st) → is_Some (snapshot st !! addr) →
     res ≠ Raise KeyError) ∧
  res ≠ Raise IndexError.
Proof.
  revert fr st. induction rest as [|line rest IH]; intros fr st; simpl.
  { destruct (pop_or_zero (stack fr)) as [r s']. unfold_m.
    intros Heq Hg. simplify_eq. split_and!; try done.
    - exists []. by rewrite app_nil_r.
    - intros ? ? [= <- <-]. simpl. lia. }
  case_decide as Hblank; [by apply IH|].
  destruct (step call addr (Text.strip line) fr st) as [st1 res1] eqn:Hstep.
  intros Hrun Hg.
  apply step_cases in Hstep
    as [(Hdom & Htr & Hgas & Hrec & Hidx & Hkey)
       |(callee & a & args & stc & resc & Hpos & Ha & Hc & Hafter)].
  - (* an instruction local to the frame *)
    assert (∃ new, call_trace st1 = call_trace st ++ new ∧ Forall event_ok new)
      as (new1 & Hnew1 & Hok1).
    { destruct Htr as [->|[v ->]].
      - exists []. by rewrite app_nil_r.
      - exists [LogEvent addr v]. split; [done|]. by repeat constructor. }
    destruct res1 as [[fr1|r fr1]|e]; simplify_eq.
    + specialize (Hgas _ eq_refl). simpl in Hgas.
      apply IH in Hrun as (Htr' & Hdom' & Hgas' & Hrec' & Hkey' & Hidx');
        [|lia].
      destruct Htr' as (new2 & -> & Hok2). rewrite Hnew1, Hdom', Hdom.
      split_and!; try done.
      * exists (new1 ++ new2). rewrite app_assoc. split; [done|].
        by apply Forall_app.
      * intros HD Hsome. apply Hkey'; [by rewrite Hdom|].
        apply elem_of_dom. rewrite Hdom. by apply elem_of_dom.
    + specialize (Hgas _ eq_refl). simpl in Hgas.
      split_and!; try done; eauto.
      intros ? ? [= <- <-]. lia.
    + split_and!; [by eauto | done | done | by intros _ [= ->] | | ].
      * intros HD [x Hx] [= ->]. rewrite Hkey in Hx; done.
      * intros [= ->]. by apply TextFacts.split_strip_nonempty in Hblank; auto.
  - (* a nested call *)
    apply Hcall in Hc as (Htr & Hdom & Hgas & Hrec & Hkey & Hidx).
    destruct Htr as (new1 & Hnew1 & Hok1).
    destruct resc as [[[r u] c]|e].
    + destruct Hafter as (-> & fr1 & -> & Hg1).
      specialize (Hgas _ _ _ eq_refl).
      apply IH in Hrun as (Htr' & Hdom' & Hgas' & Hrec' & Hkey' & Hidx');
        [|lia].
      destruct Htr' as (new2 & -> & Hok2). simpl in *.
      rewrite Hnew1, Hdom', Hdom.
      split_and!; try done.
      * exists (new1 ++ [CallEvent addr callee a u r] ++ new2).
        split; [by rewrite <- !app_assoc|].
        apply Forall_app. split; [done|]. apply Forall_cons. split; [|done].
        simpl. lia.
      * intros HD Hsome. apply Hkey'; [by rewrite Hdom|].
        apply elem_of_dom. rewrite Hdom. by apply elem_of_dom.
    + destruct Hafter as [-> ->]. simplify_eq.
      split_and!; [by eauto | done | done | | | ].
      * intros Hn [= ->]. apply Hrec; [lia|done].
      * intros HD _ [= ->]. by apply Hkey.
      * by intros [= ->].
Qed.
End run_invariants.

Lemma frame_body_spec call n w :
  frame_spec n (dom w) call → frame_spec (S n) (dom w) (frame_body call w).
Proof.
  intros Hcall addr caller g stk st st' res. unfold frame_body.
  destruct (w !! addr) as [c|] eqn:Hw.
  2:{ unfold_m. intros [= <- <-]. split_and!; try done.
      exists []. by rewrite app_nil_r. }
  destruct (snapshot st !! addr) as [sto|] eqn:Hsnap.
  2:{ intros [= <- <-]. split_and!; try done.
      - exists []. by rewrite app_nil_r.
      - intros HD _. apply (not_elem_of_dom (snapshot st) addr) in Hsnap.
        apply Hsnap, HD, elem_of_dom. eauto. }
  unfold_m.
  destruct (run call addr (code c) (mkFrame stk g ∅) st) as [st1 res1] eqn:Hrun.
  apply (run_spec call n (dom w) Hcall addr g) in Hrun
    as (Htr & Hdom & Hgas & Hrec & Hkey & Hidx); [|simpl; lia].
  destruct res1 as [[r fr]|e]; intros [= <- <-].
  - specialize (Hgas _ _ eq_refl). split_and!; try done.
    intros ? ? ? [= <- <- <-]. lia.
  - split_and!; try done.
    + intros Hn [= ->]. apply Hrec; [lia|done].
    + intros HD [= ->]. apply Hkey; eauto.
    + by intros [= ->].
Qed.

(** The invariants hold of the interpreter at every depth. *)
Lemma exec_frame_spec fuel w :
  frame_spec fuel (dom w) (_exec_contract_frame fuel w).
Proof.
  induction fuel as [|fuel IH]; simpl; [|by apply frame_body_spec].
  intros addr caller g stk st st' res. unfold_m. intros [= <- <-].
  split_and!; try done; [|lia].
  exists []. by rewrite app_nil_r.
Qed.

(** Gas bounds the depth of nested calls: with [depth_bound gas_limit]
    levels the native recursion is never cut short. *)
Lemma frame_fuel_enough fuel w addr caller g stk st :
  (depth_bound g ≤ fuel)%nat →
  (_exec_contract_frame fuel w addr caller g stk st).2 ≠ Raise RecursionError.
Proof.
  intros Hfuel.
  destruct (_exec_contract_frame fuel w addr caller g stk st) as [st' res] eqn:E.
  apply exec_frame_spec in E as (_ & _ & _ & Hrec & _). simpl.
  apply Hrec. unfold depth_bound in Hfuel. lia.
Qed.

(** ** More native stack never changes an outcome *)

Lemma dispatch_not_call call1 call2 addr op parts fr st :
  op ≠ "CALL" →
  dispatch call1 addr op parts fr st = dispatch call2 addr op parts fr st.
Proof. intros Hop. unfold dispatch. by repeat case_decide. Qed.

Section monotone.
Variables (call1 call2 : FrameFn).
Hypothesis Href : refines call1 call2.

Lemma call_op_mono addr parts fr st st' res :
  call_op call1 addr parts fr st = (st', res) →
  res ≠ Raise RecursionError →
  call_op call2 addr parts fr st = (st', res).
Proof.
  unfold call_op.
  destruct parts as [|? [|callee [|p2 [|p3 ?]]]]; try done.
  destruct (Text.int p2) as [a|]; [|done].
  destruct (Text.int p3) as [nargs|]; [|done].
  repeat case_decide; try done.
  destruct (pop_n (Z.to_nat nargs) (stack fr)) as [popped s'].
  unfold_m.
  destruct (call1 callee addr a (rev popped) st) as [stc resc] eqn:Hc.
  intros Heq Hres.
  assert (resc ≠ Raise RecursionError) as Hresc.
  { intros ->. by simplify_eq. }
  apply Href in Hc; try done. by rewrite Hc.
Qed.

Lemma step_mono addr instr fr st st' res :
  step call1 addr instr fr st = (st', res) →
  res ≠ Raise RecursionError →
  step call2 addr instr fr st = (st', res).
Proof.
  unfold step. destruct (Text.split instr) as [|p0 ps]; [done|].
  destruct (charge (Text.upper p0) fr) as [fr1|e]; [|done].
  destruct (decide (Text.upper p0 = "CALL")) as [->|Hop].
  - rewrite !dispatch_CALL. apply call_op_mono.
  - by rewrite (dispatch_not_call call1 call2).
Qed.

Lemma run_mono addr rest fr st st' res :
  run call1 addr rest fr st = (st', res) →
  res ≠ Raise RecursionError →
  run call2 addr rest fr st = (st', res).
Proof.
  revert fr st. induction rest as [|line rest IH]; intros fr st; simpl;
    [done|].
  case_decide; [by apply IH|].
  destruct (step call1 addr (Text.strip line) fr st) as [st1 res1] eqn:Hs.
  intros Hrun Hres.
  assert (res1 ≠ Raise RecursionError) as Hres1.
  { intros ->. by simplify_eq. }
  rewrite (step_mono _ _ _ _ _ _ Hs Hres1).
  destruct res1 as [[fr1|r fr1]|e]; auto.
Qed.

Lemma frame_body_mono w : refines (frame_body call1 w) (frame_body call2 w).
Proof.
  intros addr caller g stk st st' res. unfold frame_body.
  destruct (w !! addr) as [c|]; [|done].
  destruct (snapshot st !! addr); [|done].
  unfold_m.
  destruct (run call1 addr (code c) (mkFrame stk g ∅) st) as [st1 res1] eqn:Hr.
  intros Heq Hres.
  assert (res1 ≠ Raise RecursionError) as Hres1.
  { intros ->. by simplify_eq. }
  by rewrite (run_mono _ _ _ _ _ _ Hr Hres1).
Qed.
End monotone.

Lemma exec_frame_mono w fuel1 fuel2 :
  (fuel1 ≤ fuel2)%nat →
  refines (_exec_contract_frame fuel1 w) (_exec_contract_frame fuel2 w).
Proof.
  revert fuel2. induction fuel1 as [|fuel1 IH]; intros fuel2 Hle.
  - intros addr caller g stk st st' res. simpl. unfold_m.
    intros [= <- <-]. done.
  - destruct fuel2 as [|fuel2]; [lia|]. simpl.
    apply frame_body_mono, IH. lia.
Qed.

(** Any two depths that cover the gas budget give the same outcome. *)
Lemma exec_frame_fuel_irrelevant w fuel1 fuel2 addr caller g stk st :
  (depth_bound g ≤ fuel1)%nat → (depth_bound g ≤ fuel2)%nat →
  _exec_contract_frame fuel1 w addr caller g stk st =
  _exec_contract_frame fuel2 w addr caller g stk st.
Proof.
  intros H1 H2.
  pose proof (frame_fuel_enough (depth_bound g) w addr caller g stk st
                (le_n _)) as Hne.
  destruct (_exec_contract_frame (depth_bound g) w addr caller g stk st)
    as [st' res] eqn:E. simpl in Hne.
  rewrite (exec_frame_mono w _ fuel1 H1 _ _ _ _ _ _ _ E Hne).
  by rewrite (exec_frame_mono w _ fuel2 H2 _ _ _ _ _ _ _ E Hne).
Qed.

(** ** Lemmas on the transaction coordinator *)

Lemma take_snapshot_dom (w : World) : dom (take_snapshot w) = dom w.
Proof. unfold take_snapshot. apply dom_fmap_L. Qed.

Lemma commit_dom (w : World) snap : dom (commit w snap) = dom w.
Proof.
  unfold commit.
  apply (map_fold_weak_ind (λ r _, dom r = dom w)); [done|].
  intros addr sto m r _ IH. by rewrite dom_alter_L.
Qed.


(** A line that raises ends the loop with that exception. *)
Lemma run_raise call addr line rest fr st st' e :
  ¬ blank line →
  step call addr (Text.strip line) fr st = (st', Raise e) →
  run call addr (line :: rest) fr st = (st', Raise e).
Proof.
  intros Hb Hstep. simpl. rewrite decide_False by done. by rewrite Hstep.
Qed.




(** ** The transaction coordinator: failures *)

(** C1, at the failing inputs. A [PUSH] whose operand is not an integer,
    and a [CALL] whose gas amount is not an integer, make [int] raise
    [ValueError]; the handler of [execute_transaction] only catches
    [VMExecutionError], so the exception reaches the invoking collaborator
    and no result record is returned. *)
Theorem non_integer_operand_escapes :
  execute_transaction bad_push_world "P" "alice" 100 [] 0 1
    = (bad_push_world, Raise ValueError) ∧
  execute_transaction bad_call_world "C" "alice" 100 [] 0 1
    = (bad_call_world, Raise ValueError).
Proof. split; vm_compute; reflexivity. Qed.

(** C2. A transaction that fails, at whatever depth, leaves the world as
    it was: the staged snapshot is dropped and nothing is committed. *)
Theorem failed_transaction_keeps_world w to_addr caller gas_limit args t0 t1 :
  failed (execute_transaction w to_addr caller gas_limit args t0 t1).2 →
  (execute_transaction w to_addr caller gas_limit args t0 t1).1 = w ∧
  ∀ addr, storage <$> (execute_transaction w to_addr caller gas_limit args t0 t1).1 !! addr
          = storage <$> w !! addr.
Proof.
  unfold execute_transaction, execute_transaction_at.
  destruct (_exec_contract_frame _ _ _ _ _ _ _) as [st [[[r u] c]|e]]; simpl.
  - done.
  - by destruct e.
Qed.

Lemma failed_transaction_keeps_world_witness :
  (execute_transaction failing_world "E" "eve" 500 [] 0 1).1 = failing_world.
Proof.
  apply (failed_transaction_keeps_world failing_world "E" "eve" 500 [] 0 1).
  vm_compute. reflexivity.
Defined.

(** C4. When the root frame raises a [VMExecutionError], its own or one
    that came up unchanged from a nested call at any depth, the
    transaction returns the record with [success=false], no return
    value, the whole gas limit as [gas_used] whatever was really
    consumed, and empty opcode counts; a returned record with
    [success=false] comes from nowhere else. This holds on a native
    stack of any depth, that of [execute_transaction] included. *)
Theorem failed_result_fields fuel w to_addr caller gas_limit args t0 t1 :
  let frame := _exec_contract_frame fuel w to_addr caller gas_limit args
                 (mkShared (take_snapshot w) []) in
  let out := execute_transaction_at fuel w to_addr caller gas_limit args t0 t1 in
  (∀ st m, frame = (st, Raise (VMExecutionError m)) →
     out = (w, Ok (mkResult false None gas_limit ∅ (call_trace st)
                            (t1 - t0)%float))) ∧
  (∀ r, out.2 = Ok r → success r = false →
     return_value r = None ∧ gas_used r = gas_limit ∧ res_op_counts r = ∅ ∧
     ∃ st m, frame = (st, Raise (VMExecutionError m))) ∧
  (∀ depth addr line p0 callee p2 p3 more rest fr st gas_amount nargs stc e,
     Text.split line = p0 :: callee :: p2 :: p3 :: more →
     Text.upper p0 = "CALL" →
     Text.int p2 = Some gas_amount →
     Text.int p3 = Some nargs →
     10 ≤ gas_remaining fr →
     gas_amount ≤ gas_remaining fr - 10 →
     nargs ≤ Z.of_nat (length (stack fr)) →
     _exec_contract_frame depth w callee addr gas_amount
       (drop (length (stack fr) - Z.to_nat nargs) (stack fr)) st
       = (stc, Raise e) →
     run (_exec_contract_frame depth w) addr (line :: rest) fr st
       = (stc, Raise e)).
Proof.
  intros frame out. subst frame out. unfold execute_transaction_at.
  split_and!.
  - by intros st m ->.
  - intros r.
    destruct (_exec_contract_frame _ _ _ _ _ _ _) as [st [[[v u] c]|e]]; simpl.
    + by intros [= <-].
    + destruct e; intros [= <-]; try done. intros _. split_and!; eauto.
  - intros * Hs Hop Hp2 Hp3 Hg Ha Hn Hcallee.
    apply run_raise; [by eapply tokens_not_blank|].
    rewrite <- split_strip in Hs.
    rewrite (step_CALL _ _ _ _ _ _ _ _ _ _ _ _ Hs Hop Hp2 Hp3 Hg Ha Hn).
    by rewrite Hcallee.
Qed.

Lemma failed_result_fields_witness :
  execute_transaction failing_world "E" "eve" 500 [] 0 1
  = (failing_world,
     Ok (mkResult false None 500 ∅ [] 1)).
Proof.
  destruct (failed_result_fields (depth_bound 500) failing_world "E" "eve" 500
              [] 0 1) as (Hrecord & _ & _).
  assert (∃ st, _exec_contract_frame (depth_bound 500) failing_world "E" "eve"
                  500 [] (mkShared (take_snapshot failing_world) [])
                = (st, Raise (VMExecutionError DivisionByZeroMsg))
                ∧ call_trace st = []) as (st & Hst & Htr).
  { eexists. split; vm_compute; reflexivity. }
  unfold execute_transaction. rewrite (Hrecord _ _ Hst), Htr. reflexivity.
Defined.




(** ** Gas accounting *)

(** C5, as the code has it. On success the reported gas is the limit
    minus what the root frame has left when it returns. A completed call
    never used a negative amount, and never more than a non-negative
    provision; when the provision is negative the callee used 0, which is
    more than it was given. *)
Theorem gas_conservation w to_addr caller gas_limit args t0 t1 r :
  (execute_transaction w to_addr caller gas_limit args t0 t1).2 = Ok r →
  success r = true →
  (∃ c st v fr,
      w !! to_addr = Some c ∧
      run (_exec_contract_frame (Z.to_nat gas_limit) w) to_addr (code c)
          (mkFrame args gas_limit ∅) (mkShared (take_snapshot w) [])
        = (st, Ok (v, fr)) ∧
      gas_used r = gas_limit - gas_remaining fr) ∧
  (∀ caller' callee provided used rv,
      CallEvent caller' callee provided used rv ∈ res_call_trace r →
      0 ≤ used ∧ (0 ≤ provided → used ≤ provided) ∧
      (provided < 0 → used = 0)).
Proof.
  unfold execute_transaction, execute_transaction_at.
  destruct (_exec_contract_frame _ _ _ _ _ _ _) as [st [[[v u] c]|e]] eqn:E;
    simpl.
  2:{ destruct e; intros [= <-]; done. }
  intros [= <-] _. simpl. split.
  - unfold depth_bound in E. simpl in E. unfold frame_body in E.
    destruct (w !! to_addr) as [c0|]; [|done]. simpl in E.
    destruct (take_snapshot w !! to_addr); [|done]. unfold_m.
    destruct (run _ _ _ _ _) as [st1 [[v1 fr]|e]] eqn:Hrun; [|done].
    injection E as <- <- <- <-. by exists c0, st1, v1, fr.
  - apply exec_frame_spec in E as ((new & Hnew & Hok) & _). simpl in Hnew.
    subst new. intros caller' callee provided used rv Hin.
    rewrite Forall_forall in Hok. apply Hok in Hin. simpl in Hin. lia.
Qed.

Lemma gas_conservation_witness :
  (∃ c st v fr,
      demo_world !! "B" = Some c ∧
      run (_exec_contract_frame (Z.to_nat 800) demo_world) "B" (code c)
          (mkFrame [] 800 ∅) (mkShared (take_snapshot demo_world) [])
        = (st, Ok (v, fr)) ∧
      75 = 800 - gas_remaining fr) ∧
  (∀ caller' callee provided used rv,
      CallEvent caller' callee provided used rv ∈ [CallEvent "B" "A" 200 33 2] →
      0 ≤ used ∧ (0 ≤ provided → used ≤ provided) ∧
      (provided < 0 → used = 0)).
Proof.
  apply (gas_conservation demo_world "B" "bob" 800 [] 0 1
           (mkResult true (Some 20) 75
              (merge_counts ∅ (list_to_map
                 [("STORE", 2); ("CALL", 1); ("MUL", 1); ("ADD", 1);
                  ("RETURN", 2); ("LOAD", 3); ("PUSH", 2)]))
              [CallEvent "B" "A" 200 33 2] 1));
    vm_compute; reflexivity.
Defined.

(** C5, as stated, fails: a call given a negative gas amount to a
    contract without instructions completes with [gas_used = 0], which is
    more than the [gas_provided = -5] of its event. *)
Lemma call_gas_used_above_provided :
  ∃ r, (execute_transaction negative_gas_world "B0" "bob" 100 [] 0 1).2 = Ok r ∧
       success r = true ∧
       res_call_trace r = [CallEvent "B0" "A0" (-5) 0 0] ∧
       ¬ (0 ≤ -5).
Proof.
  eexists. split; [vm_compute; reflexivity|]. repeat split. lia.
Qed.

(** ** The call dispatcher *)

(** C6. A [CALL] whose callee returns: the caller gets
    [gas_amount - child_gas_used] back on top of the earlier deduction of
    [gas_amount], the callee's opcode counts are added to its own, the
    returned value is pushed where the arguments were, and one [call]
    event is appended to the trace. The callee ran on the last [nargs]
    values of the stack, in the order they were pushed. *)
Theorem call_success call addr instr p0 callee p2 p3 more fr st
    gas_amount nargs stc r child_gas_used child_op_counts :
  let k := (length (stack fr) - Z.to_nat nargs)%nat in
  Text.split instr = p0 :: callee :: p2 :: p3 :: more →
  Text.upper p0 = "CALL" →
  Text.int p2 = Some gas_amount →
  Text.int p3 = Some nargs →
  10 ≤ gas_remaining fr →
  gas_amount ≤ gas_remaining fr - 10 →
  nargs ≤ Z.of_nat (length (stack fr)) →
  call callee addr gas_amount (drop k (stack fr)) st
    = (stc, Ok (r, child_gas_used, child_op_counts)) →
  ∃ fr',
    step call addr instr fr st
      = (mkShared (snapshot stc)
                  (call_trace stc ++
                   [CallEvent addr callee gas_amount child_gas_used r]),
         Ok (Next fr')) ∧
    gas_remaining fr'
      = (gas_remaining fr - 10 - gas_amount) + (gas_amount - child_gas_used) ∧
    stack fr' = take k (stack fr) ++ [r] ∧
    ∀ op, default 0 (op_counts fr' !! op)
          = default 0 (op_counts fr !! op)
            + (if decide ("CALL" = op) then 1 else 0)
            + default 0 (child_op_counts !! op).
Proof.
  intros k Hsplit Hop Hp2 Hp3 Hgas Hamount Hargs Hcall.
  rewrite (step_CALL call addr instr _ _ _ _ _ fr st _ _
             Hsplit Hop Hp2 Hp3 Hgas Hamount Hargs).
  fold k. rewrite Hcall. eexists. split; [reflexivity|]. simpl.
  split_and!; [done|done|].
  intros op. by rewrite merge_counts_lookup, bump_lookup.
Qed.

Lemma call_success_witness :
  ∃ fr',
    step (_exec_contract_frame 5 demo_world) "B" "CALL A 200 1"
         (mkFrame [2] 499 ∅) (mkShared (take_snapshot demo_world) [])
      = (mkShared (<["A" := {["counter" := 2]}]> (take_snapshot demo_world))
                  [CallEvent "B" "A" 200 33 2],
         Ok (Next fr')) ∧
    gas_remaining fr' = 456 ∧
    stack fr' = [2] ∧
    ∀ op, default 0 (op_counts fr' !! op)
          = default 0 ((∅ : gmap string Z) !! op)
            + (if decide ("CALL" = op) then 1 else 0)
            + default 0 ((list_to_map [("STORE", 1); ("ADD", 1); ("RETURN", 1);
                                       ("LOAD", 2)] : gmap string Z) !! op).
Proof.
  refine (call_success (_exec_contract_frame 5 demo_world) "B" "CALL A 200 1"
            "CALL" "A" "200" "1" [] (mkFrame [2] 499 ∅)
            (mkShared (take_snapshot demo_world) []) 200 1
            (mkShared (<["A" := {["counter" := 2]}]> (take_snapshot demo_world)) [])
            2 33
            (list_to_map [("STORE", 1); ("ADD", 1); ("RETURN", 1); ("LOAD", 2)])
            _ _ _ _ _ _ _ _);
    try (vm_compute; reflexivity); simpl; lia.
Defined.

(** ** Arithmetic opcodes *)

(** C7. Once charged, [ADD], [SUB], [MUL] and [DIV] take [a] from the
    top of the stack, then [b], and put back [b + a], [b - a], [b * a]
    or the floor of [b / a]; with fewer than two values on the stack they
    raise a stack underflow, and [DIV] raises a division by zero exactly
    when [a = 0]. *)
Theorem arith_semantics call addr instr p0 more fr fr1 st op :
  Text.split instr = p0 :: more →
  Text.upper p0 = op →
  op ∈ ["ADD"; "SUB"; "MUL"; "DIV"] →
  charge op fr = Ok fr1 →
  (∀ s b a, stack fr = s ++ [b; a] →
     let result v := (st, Ok (Next (with_stack (s ++ [v]) fr1))) in
     (op = "ADD" → step call addr instr fr st = result (b + a)) ∧
     (op = "SUB" → step call addr instr fr st = result (b - a)) ∧
     (op = "MUL" → step call addr instr fr st = result (b * a)) ∧
     (op = "DIV" → a ≠ 0 →
        step call addr instr fr st = result (b `div` a) ∧
        ∃ rem, b = a * (b `div` a) + rem ∧ (0 ≤ rem < a ∨ a < rem ≤ 0)) ∧
     (op = "DIV" → a = 0 →
        step call addr instr fr st
          = (st, Raise (VMExecutionError DivisionByZeroMsg)))) ∧
  ((length (stack fr) < 2)%nat →
     step call addr instr fr st
       = (st, Raise (VMExecutionError (NeedsTwoOperands op)))) ∧
  kind_of (NeedsTwoOperands op) = StackUnderflow ∧
  kind_of DivisionByZeroMsg = DivisionByZero.
Proof.
  intros Hsplit Hop Hin Hcharge.
  assert (step call addr instr fr st = arith op fr1 st) as ->.
  { unfold step. rewrite Hsplit, Hop, Hcharge.
    repeat (apply elem_of_cons in Hin as [->|Hin]; [reflexivity|]).
    by apply elem_of_nil in Hin. }
  apply charge_Ok in Hcharge as (Hstack & _).
  split_and!; try done.
  - intros s b a Hs. rewrite <- Hstack in Hs. unfold arith. rewrite Hs.
    rewrite decide_False by (rewrite length_app; simpl; lia).
    replace (s ++ [b; a]) with ((s ++ [b]) ++ [a]) by by rewrite <- app_assoc.
    rewrite !pop_snoc. unfold_m.
    split_and!; intros ->; simpl; try done.
    + intros Ha. rewrite decide_False by done. split; [done|].
      exists (b `mod` a). split; [by apply Z.div_mod|].
      destruct (decide (0 < a)).
      * left. by apply Z.mod_pos_bound.
      * right. apply Z.mod_neg_bound. lia.
    + intros ->. by rewrite decide_True.
  - intros Hlen. unfold arith. rewrite Hstack.
    rewrite decide_True by lia. done.
Qed.

Lemma arith_semantics_witness :
  step (_exec_contract_frame 0 demo_world) "A" " div "
       (mkFrame [7; -7; 2] 10 ∅) (mkShared ∅ [])
  = (mkShared ∅ [],
     Ok (Next (mkFrame [7; -4] 5 (bump "DIV" 1 ∅)))).
Proof.
  assert (Text.split " div " = ["div"]) as Hsplit by reflexivity.
  assert ("DIV" ∈ ["ADD"; "SUB"; "MUL"; "DIV"]) as Hin by set_solver.
  assert (charge "DIV" (mkFrame [7; -7; 2] 10 ∅)
          = Ok (mkFrame [7; -7; 2] 5 (bump "DIV" 1 ∅))) as Hcharge
    by reflexivity.
  destruct (arith_semantics (_exec_contract_frame 0 demo_world) "A" " div "
              "div" [] (mkFrame [7; -7; 2] 10 ∅) _ (mkShared ∅ []) "DIV"
              Hsplit eq_refl Hin Hcharge) as [Hall _].
  destruct (Hall [7] (-7) 2 eq_refl) as (_ & _ & _ & Hdiv & _).
  destruct (Hdiv eq_refl) as [Hstep _]; [lia|]. exact Hstep.
Defined.

(** ** The registry *)

(** C8. Looking an address up yields the deployed contract or the
    absence of one, and nothing is ever added to the registry by a
    lookup or by a transaction. For an address that is not deployed, a
    frame, a transaction addressed to it, and a [CALL] to it all fail
    with the [ContractNotFound] kind. *)
Theorem undeployed_address_not_found (w : World) addr :
  w !! addr = None →
  (∀ a, get_contract w a = w !! a) ∧
  (∀ to_addr caller g args t0 t1,
     dom (execute_transaction w to_addr caller g args t0 t1).1 = dom w) ∧
  (∀ fuel caller g stk st,
     _exec_contract_frame (S fuel) w addr caller g stk st
       = (st, Raise (VMExecutionError (ContractNotFoundMsg addr)))) ∧
  kind_of (ContractNotFoundMsg addr) = ContractNotFound ∧
  (∀ caller g args t0 t1,
     execute_transaction w addr caller g args t0 t1
       = (w, Ok (mkResult false None g ∅ [] (t1 - t0)%float))) ∧
  (∀ fuel caller instr p0 p2 p3 more fr st gas_amount nargs,
     Text.split instr = p0 :: addr :: p2 :: p3 :: more →
     Text.upper p0 = "CALL" →
     Text.int p2 = Some gas_amount →
     Text.int p3 = Some nargs →
     10 ≤ gas_remaining fr →
     gas_amount ≤ gas_remaining fr - 10 →
     nargs ≤ Z.of_nat (length (stack fr)) →
     step (_exec_contract_frame (S fuel) w) caller instr fr st
       = (st, Raise (VMExecutionError (ContractNotFoundMsg addr)))).
Proof.
  intros Hw.
  assert (∀ fuel caller g stk st,
     _exec_contract_frame (S fuel) w addr caller g stk st
       = (st, Raise (VMExecutionError (ContractNotFoundMsg addr)))) as Hframe.
  { intros. simpl. unfold frame_body. by rewrite Hw. }
  split_and!; try done.
  - intros. unfold execute_transaction, execute_transaction_at.
    destruct (_exec_contract_frame _ _ _ _ _ _ _) as [st [[[v u] c]|e]]; simpl.
    + apply commit_dom.
    + by destruct e.
  - intros. unfold execute_transaction, execute_transaction_at, depth_bound.
    by rewrite Hframe.
  - intros * Hsplit Hop Hp2 Hp3 Hgas Hamount Hargs.
    rewrite (step_CALL _ _ _ _ _ _ _ _ _ _ _ _ Hsplit Hop Hp2 Hp3 Hgas Hamount Hargs).
    by rewrite Hframe.
Qed.

Lemma undeployed_address_not_found_witness :
  execute_transaction demo_world "Z" "zoe" 50 [] 0 1
    = (demo_world, Ok (mkResult false None 50 ∅ [] 1)).
Proof.
  assert (demo_world !! "Z" = None) as Hw by (vm_compute; reflexivity).
  destruct (undeployed_address_not_found demo_world "Z" Hw)
    as (_ & _ & _ & _ & Htx & _).
  exact (Htx "zoe" 50 [] 0%float 1%float).
Defined.

(** ** Determinism *)

(** C9, as the code has it. Run twice against the same world, a
    transaction gives the same world afterwards and the same outcome in
    every field but [duration_s], whatever the clock reads and however
    deep the native stack is, provided it covers the gas limit; the
    duration is the difference of the two clock readings of the run. *)
Theorem deterministic_but_duration w to_addr caller gas_limit args
    fuel1 fuel2 t0 t1 t0' t1' :
  (depth_bound gas_limit ≤ fuel1)%nat →
  (depth_bound gas_limit ≤ fuel2)%nat →
  let x := execute_transaction_at fuel1 w to_addr caller gas_limit args t0 t1 in
  let y := execute_transaction_at fuel2 w to_addr caller gas_limit args t0' t1' in
  x.1 = y.1 ∧ same_but_duration x.2 y.2 ∧
  (∀ r, x.2 = Ok r → duration_s r = (t1 - t0)%float).
Proof.
  intros H1 H2. unfold execute_transaction_at.
  rewrite (exec_frame_fuel_irrelevant w fuel1 fuel2) by done.
  destruct (_exec_contract_frame _ _ _ _ _ _ _) as [st [[[v u] c]|e]]; simpl.
  - split_and!; try done. by intros r [= <-].
  - destruct e; simpl; split_and!; try done; by intros r [= <-].
Qed.

Lemma deterministic_but_duration_witness :
  let x := execute_transaction_at 501 demo_world "A" "alice" 500 [7] 0 1 in
  let y := execute_transaction_at 600 demo_world "A" "alice" 500 [7] 1 3 in
  x.1 = y.1 ∧ same_but_duration x.2 y.2 ∧
  (∀ r, x.2 = Ok r → duration_s r = (1 - 0)%float).
Proof.
  apply (deterministic_but_duration demo_world "A" "alice" 500 [7] 501 600
           0 1 1 3); vm_compute; lia.
Defined.

(** C9, as stated, fails: the second run of the same transaction against
    the same world is timed by later clock readings, and the two records
    differ in [duration_s]. *)
Lemma duration_not_deterministic :
  (execute_transaction demo_world "A" "alice" 500 [7] 0 1).2
  ≠ (execute_transaction demo_world "A" "alice" 500 [7] 1 3).2.
Proof.
  intros H.
  apply (f_equal (λ out, match out with
                         | Ok r => PrimFloat.ltb (duration_s r) 1.5
                         | Raise _ => false
                         end)) in H.
  vm_compute in H. discriminate.
Qed.

(** ** Calls with a negative gas amount *)

(** With a negative budget the first line that is not blank runs out of
    gas, whatever its opcode; a frame whose lines are all blank returns
    without having used any gas. *)
Lemma run_negative_gas call addr rest fr st :
  gas_remaining fr < 0 →
  (Exists (λ l, ¬ blank l) rest →
     run call addr rest fr st = (st, Raise (VMExecutionError OutOfGasMsg))) ∧
  (Forall blank rest →
     run call addr rest fr st
       = (st, Ok ((pop_or_zero (stack fr)).1,
                  with_stack (pop_or_zero (stack fr)).2 fr))).
Proof.
  intros Hneg. induction rest as [|line rest [IHe IHf]]; simpl.
  - split; [by intros ?%Exists_nil|]. intros _.
    by destruct (pop_or_zero (stack fr)).
  - case_decide as Hb.
    + split.
      * intros [?|?]%Exists_cons; [done|auto].
      * intros [_ ?]%Forall_cons. auto.
    + split; [intros _|by intros [? _]%Forall_cons].
      unfold step.
      destruct (Text.split (Text.strip line)) as [|p0 ps] eqn:Hs.
      { by apply TextFacts.split_strip_nonempty in Hb. }
      unfold charge. pose proof (cost_nonneg (Text.upper p0)).
      rewrite decide_True by lia. done.
Qed.

Lemma frame_negative_gas call w addr caller g stk st c :
  g < 0 → w !! addr = Some c → is_Some (snapshot st !! addr) →
  (Exists (λ l, ¬ blank l) (code c) →
     frame_body call w addr caller g stk st
       = (st, Raise (VMExecutionError OutOfGasMsg))) ∧
  (Forall blank (code c) →
     frame_body call w addr caller g stk st
       = (st, Ok ((pop_or_zero stk).1, 0, ∅))).
Proof.
  intros Hneg Hw [sto Hsto]. unfold frame_body. rewrite Hw, Hsto. unfold_m.
  destruct (run_negative_gas call addr (code c) (mkFrame stk g ∅) st Hneg)
    as [He Hf].
  split; intros Hcode.
  - by rewrite He.
  - rewrite Hf by done. simpl. rewrite Z.sub_diag. done.
Qed.

(** C10. A [CALL] whose gas amount is negative, in a frame that can pay
    for the [CALL] itself, passes the gas check. The callee starts below
    zero: if any of its lines is not blank the call fails with
    [OutOfGas]; it completes only when all of them are blank, and then
    with [gas_used = 0], leaving the caller with what it had after being
    charged for the [CALL]. *)
Theorem negative_gas_call fuel w addr instr p0 callee p2 p3 more fr st
    gas_amount nargs c :
  let k := (length (stack fr) - Z.to_nat nargs)%nat in
  let rv := (pop_or_zero (drop k (stack fr))).1 in
  let out := step (_exec_contract_frame (S fuel) w) addr instr fr st in
  Text.split instr = p0 :: callee :: p2 :: p3 :: more →
  Text.upper p0 = "CALL" →
  Text.int p2 = Some gas_amount →
  Text.int p3 = Some nargs →
  gas_amount < 0 →
  10 ≤ gas_remaining fr →
  nargs ≤ Z.of_nat (length (stack fr)) →
  w !! callee = Some c →
  is_Some (snapshot st !! callee) →
  out.2 ≠ Raise (VMExecutionError InsufficientGasForCallMsg) ∧
  (Exists (λ l, ¬ blank l) (code c) →
     out = (st, Raise (VMExecutionError OutOfGasMsg))) ∧
  (Forall blank (code c) →
     out = (mkShared (snapshot st)
                     (call_trace st ++ [CallEvent addr callee gas_amount 0 rv]),
            Ok (Next (mkFrame (take k (stack fr) ++ [rv])
                              (gas_remaining fr - 10)
                              (bump "CALL" 1 (op_counts fr)))))) ∧
  (∀ fl, out.2 = Ok fl → Forall blank (code c)).
Proof.
  intros k rv out Hsplit Hop Hp2 Hp3 Hneg Hgas Hargs Hw Hsnap.
  assert (gas_amount ≤ gas_remaining fr - 10) as Hamount by lia.
  pose proof (step_CALL (_exec_contract_frame (S fuel) w) addr instr
                _ _ _ _ _ fr st _ _ Hsplit Hop Hp2 Hp3 Hgas Hamount Hargs)
    as Hstep.
  fold k in Hstep. fold out in Hstep. simpl in Hstep.
  destruct (frame_negative_gas (_exec_contract_frame fuel w) w callee addr
              gas_amount (drop k (stack fr)) st c Hneg Hw Hsnap) as [He Hf].
  destruct (decide (Forall blank (code c))) as [Hall|Hsome].
  - rewrite Hf in Hstep by done.
    assert (out = (mkShared (snapshot st)
                     (call_trace st ++ [CallEvent addr callee gas_amount 0 rv]),
            Ok (Next (mkFrame (take k (stack fr) ++ [rv])
                              (gas_remaining fr - 10)
                              (bump "CALL" 1 (op_counts fr)))))) as Hout.
    { rewrite Hstep. unfold merge_counts. rewrite map_fold_empty.
      do 4 f_equal. lia. }
    split_and!; [by rewrite Hout| |done|done].
    intros Hex. apply Exists_not_Forall in Hex. done.
  - apply not_Forall_Exists in Hsome; [|apply _].
    rewrite He in Hstep by done.
    split_and!; [by rewrite Hstep|done| |].
    + intros Hall. apply Exists_not_Forall in Hsome. done.
    + rewrite Hstep. by intros fl [=].
Qed.

Lemma negative_gas_call_witness :
  let w := world_of [("A", contract_a_code); ("B", ["CALL A -5 0"])] in
  step (_exec_contract_frame 3 w) "B" "CALL A -5 0" (mkFrame [] 100 ∅)
       (mkShared (take_snapshot w) [])
  = (mkShared (take_snapshot w) [], Raise (VMExecutionError OutOfGasMsg)).
Proof.
  intros w.
  assert (w !! "A" = Some (mkContract "A" contract_a_code ∅)) as Hw
    by (vm_compute; reflexivity).
  assert (is_Some (take_snapshot w !! "A")) as Hsnap
    by (exists ∅; vm_compute; reflexivity).
  destruct (negative_gas_call 2 w "B" "CALL A -5 0" "CALL" "A" "-5" "0" []
              (mkFrame [] 100 ∅) (mkShared (take_snapshot w) []) (-5) 0
              (mkContract "A" contract_a_code ∅)
              eq_refl eq_refl eq_refl eq_refl) as (_ & Hoog & _);
    [simpl; lia | simpl; lia | simpl; lia | exact Hw | exact Hsnap |].
  apply Hoog. apply Exists_cons_hd. vm_compute. discriminate.
Defined.

(** ** The scenarios of the demonstration *)

(** Scenarios A and B: the counter contract, twice in a row. *)
Example scenario_A_then_B :
  let x := execute_transaction demo_world "A" "alice" 500 [7] 0 1 in
  let y := execute_transaction x.1 "A" "carol" 300 [3] 1 2 in
  let counts : gmap string Z :=
    list_to_map [("LOAD", 2); ("ADD", 1); ("STORE", 1); ("RETURN", 1)] in
  x.2 = Ok (mkResult true (Some 7) 33 counts [] 1) ∧
  y.2 = Ok (mkResult true (Some 10) 33 counts [] 1) ∧
  storage <$> (y.1 !! "A") = Some ({["counter" := 10]} : gmap string Z).
Proof. vm_compute. done. Qed.

(** Scenario C: one nested call, its event, and ten times its result. *)
Example scenario_C :
  (execute_transaction demo_world "B" "bob" 800 [] 0 1).2
  = Ok (mkResult true (Some 20) 75
          (list_to_map [("PUSH", 2); ("CALL", 1); ("MUL", 1); ("ADD", 1);
                        ("STORE", 2); ("LOAD", 3); ("RETURN", 2)])
          [CallEvent "B" "A" 200 33 2] 1).
Proof. vm_compute. reflexivity. Qed.

(** ** Tokenising a line: blank lines and tokens *)

(** X1. A line is skipped as blank exactly when it has no token, whatever
    white space it is made of. *)
Theorem blank_iff_no_token line : blank line ↔ Text.split line = [].
Proof.
  unfold blank, Text.strip.
  rewrite TextFacts.rstrip_empty, lstrip_allspace.
  symmetry. apply TextFacts.split_empty.
Qed.

(** X2. Every element of [s.split()] is a token: it is not empty and
    holds no white space. *)
Theorem split_tokens s : Forall is_token (Text.split s).
Proof.
  induction s as [|c r IH]; simpl; [constructor|].
  destruct (Text.isspace c) eqn:Ec; [done|].
  destruct (Text.starts_word r).
  - destruct (Text.split r) as [|w ws].
    + repeat constructor; simpl; [done|by rewrite Ec].
    + apply Forall_cons in IH as [[_ Hw] Hws].
      constructor; [|done]. split; [done|]. simpl. by rewrite Ec.
  - constructor; [|done]. split; [done|]. simpl. by rewrite Ec.
Qed.

(** ** Deploying *)

(** X3. Deploying at a free address succeeds; the new contract is then
    found at that address with the code given and an empty storage, and
    every other address is as before. *)
Theorem deploy_fresh (w : World) addr c :
  w !! addr = None →
  ∃ w', deploy w addr c = Ok w' ∧
        get_contract w' addr = Some (mkContract addr c ∅) ∧
        (∀ a, a ≠ addr → get_contract w' a = get_contract w a) ∧
        dom w' = {[addr]} ∪ dom w.
Proof.
  intros Hw. unfold deploy, get_contract. rewrite Hw. eexists.
  split; [done|]. split_and!.
  - apply lookup_insert_eq.
  - intros a Ha. by apply lookup_insert_ne.
  - apply dom_insert_L.
Qed.

Lemma deploy_fresh_witness :
  ∃ w', deploy demo_world "Z" ["PUSH 1"] = Ok w' ∧
        get_contract w' "Z" = Some (mkContract "Z" ["PUSH 1"] ∅) ∧
        (∀ a, a ≠ "Z" → get_contract w' a = get_contract demo_world a) ∧
        dom w' = {["Z"]} ∪ dom demo_world.
Proof.
  apply (deploy_fresh demo_world "Z" ["PUSH 1"]). vm_compute. reflexivity.
Defined.

(** X4. An address is deployed at most once: [deploy] raises
    [ValueError] exactly when the address is taken, so a second
    deployment at an address just deployed always raises, whatever the
    code, and the first contract stays. *)
Theorem deploy_once (w w' : World) addr c :
  deploy w addr c = Ok w' →
  (∀ c', deploy w' addr c' = Raise ValueError) ∧
  (∀ a c', deploy w a c' = Raise ValueError ↔ is_Some (w !! a)) ∧
  w' !! addr = Some (mkContract addr c ∅).
Proof.
  unfold deploy. destruct (w !! addr) eqn:Hw; [done|]. intros [= <-].
  split_and!.
  - intros c'. by rewrite lookup_insert_eq.
  - intros a c'. destruct (w !! a) eqn:E; split; intros H;
      first [done | by eauto | by destruct H].
  - apply lookup_insert_eq.
Qed.

Lemma deploy_once_witness :
  (∀ c', deploy (<["Z" := mkContract "Z" ["PUSH 1"] ∅]> demo_world) "Z" c'
         = Raise ValueError) ∧
  (∀ a c', deploy demo_world a c' = Raise ValueError
           ↔ is_Some (demo_world !! a)) ∧
  (<["Z" := mkContract "Z" ["PUSH 1"] ∅]> demo_world) !! "Z"
    = Some (mkContract "Z" ["PUSH 1"] ∅).
Proof.
  apply (deploy_once demo_world _ "Z" ["PUSH 1"]). vm_compute. reflexivity.
Defined.

(** ** Single instructions *)

Lemma step_charged call addr instr p0 ps fr st :
  Text.split instr = p0 :: ps →
  cost (Text.upper p0) ≤ gas_remaining fr →
  step call addr instr fr st
  = dispatch call addr (Text.upper p0) (p0 :: ps) (charged (Text.upper p0) fr) st.
Proof.
  intros Hs Hg. unfold step, charge. rewrite Hs.
  rewrite decide_False by lia. done.
Qed.

Ltac elem_cases H :=
  repeat (apply elem_of_cons in H as [->|H]); [..|by apply elem_of_nil in H].

Ltac in_list :=
  repeat first [apply list_elem_of_here | apply list_elem_of_further].

(** X5. Gas is charged before anything else is looked at. An instruction
    that costs more than the frame has left fails with [OutOfGas] and
    touches neither the snapshot nor the trace, whatever its opcode
    (known or not), its operands (well-formed or not) and the stack. *)
Theorem out_of_gas_first call addr instr p0 ps fr st :
  Text.split instr = p0 :: ps →
  gas_remaining fr < cost (Text.upper p0) →
  step call addr instr fr st = (st, Raise (VMExecutionError OutOfGasMsg)).
Proof.
  intros Hs Hg. unfold step, charge. rewrite Hs.
  rewrite decide_True by lia. done.
Qed.

Lemma out_of_gas_first_witness :
  step (_exec_contract_frame 3 demo_world) "A" "push abc"
       (mkFrame [] 0 ∅) (mkShared ∅ [])
  = (mkShared ∅ [], Raise (VMExecutionError OutOfGasMsg)).
Proof.
  apply (out_of_gas_first _ "A" "push abc" "push" ["abc"]);
    [reflexivity | vm_compute; reflexivity].
Defined.

Lemma cost_unknown op : op ∉ known_ops → cost op = 1.
Proof.
  intros Hop. unfold cost.
  assert (OPCOST !! op = None) as ->; [|done].
  apply not_elem_of_list_to_map. simpl. intros Hin. apply Hop.
  elem_cases Hin; unfold known_ops; in_list.
Qed.

(** X6. A first token that is none of the thirteen opcode names, in any
    letter case, costs 1 and then fails with [UnknownOp], carrying the
    upper-cased token; the shared state is untouched. *)
Theorem unknown_opcode call addr instr p0 ps fr st :
  Text.split instr = p0 :: ps →
  Text.upper p0 ∉ known_ops →
  1 ≤ gas_remaining fr →
  step call addr instr fr st
    = (st, Raise (VMExecutionError (UnknownOp (Text.upper p0)))) ∧
  kind_of (UnknownOp (Text.upper p0)) = UnknownOpcode.
Proof.
  intros Hs Hop Hg. split; [|done].
  rewrite (step_charged _ _ _ _ _ _ _ Hs) by (rewrite cost_unknown; done).
  unfold known_ops in Hop. unfold dispatch.
  repeat (rewrite decide_False;
          [|intros Hin; apply Hop;
            first [rewrite Hin; by in_list | elem_cases Hin; by in_list]]).
  done.
Qed.

Lemma unknown_opcode_witness :
  step (_exec_contract_frame 3 demo_world) "A" "jump 3"
       (mkFrame [] 5 ∅) (mkShared ∅ [])
    = (mkShared ∅ [], Raise (VMExecutionError (UnknownOp "JUMP"))) ∧
  kind_of (UnknownOp "JUMP") = UnknownOpcode.
Proof.
  apply (unknown_opcode _ "A" "jump 3" "jump" ["3"]);
    [reflexivity | | simpl; lia].
  change (Text.upper "jump") with "JUMP". unfold known_ops. intros Hin.
  repeat (apply elem_of_cons in Hin as [Heq|Hin]; [discriminate Heq|]).
  by apply elem_of_nil in Hin.
Defined.

Lemma dispatch_load call addr op p key more fr st :
  op ∈ ["LOAD"; "SLOAD"] →
  dispatch call addr op (p :: key :: more) fr st = load addr key fr st.
Proof. intros Hop. elem_cases Hop; reflexivity. Qed.

Lemma dispatch_store call addr op p key more fr st :
  op ∈ ["STORE"; "SSTORE"] →
  dispatch call addr op (p :: key :: more) fr st = store addr key fr st.
Proof. intros Hop. elem_cases Hop; reflexivity. Qed.

Lemma staged_insert st addr key v sto a k :
  snapshot st !! addr = Some sto →
  staged (mkShared (<[addr := <[key := v]> sto]> (snapshot st)) (call_trace st)) a k
  = if decide (a = addr ∧ k = key) then Some v else staged st a k.
Proof.
  intros Hsto. unfold staged. simpl.
  destruct (decide (a = addr)) as [->|Ha].
  - rewrite lookup_insert_eq, Hsto. simpl.
    destruct (decide (k = key)) as [->|Hk].
    + rewrite lookup_insert_eq. by rewrite decide_True.
    + rewrite lookup_insert_ne by done. rewrite decide_False; [done|].
      by intros [_ ?].
  - rewrite lookup_insert_ne by done. rewrite decide_False; [done|].
    by intros [? _].
Qed.

Lemma step_store_ok call addr instr p key more fr st s v sto :
  Text.split instr = p :: key :: more →
  Text.upper p ∈ ["STORE"; "SSTORE"] →
  stack fr = s ++ [v] →
  snapshot st !! addr = Some sto →
  cost (Text.upper p) ≤ gas_remaining fr →
  step call addr instr fr st
  = (mkShared (<[addr := <[key := v]> sto]> (snapshot st)) (call_trace st),
     Ok (Next (with_stack s (charged (Text.upper p) fr)))).
Proof.
  intros Hs Hop Hstack Hsto Hg.
  rewrite (step_charged _ _ _ _ _ _ _ Hs Hg), dispatch_store by done.
  unfold store. simpl. by rewrite Hstack, pop_snoc, Hsto.
Qed.

(** X7. [STORE key] takes the top of the stack and writes it to one cell
    of the staged snapshot, the cell [key] of the running contract: every
    other cell of every contract, the set of addresses and the trace are
    as before. Operands after the key are ignored. *)
Theorem store_writes_one_cell call addr instr p key more fr st s v sto :
  Text.split instr = p :: key :: more →
  Text.upper p ∈ ["STORE"; "SSTORE"] →
  stack fr = s ++ [v] →
  snapshot st !! addr = Some sto →
  cost (Text.upper p) ≤ gas_remaining fr →
  ∃ st1,
    step call addr instr fr st
      = (st1, Ok (Next (with_stack s (charged (Text.upper p) fr)))) ∧
    staged st1 addr key = Some v ∧
    (∀ a k, ¬ (a = addr ∧ k = key) → staged st1 a k = staged st a k) ∧
    dom (snapshot st1) = dom (snapshot st) ∧
    call_trace st1 = call_trace st.
Proof.
  intros Hs Hop Hstack Hsto Hg.
  rewrite (step_store_ok _ _ _ _ _ _ _ _ _ _ _ Hs Hop Hstack Hsto Hg).
  eexists. split; [reflexivity|]. split_and!.
  - rewrite staged_insert by done. by rewrite decide_True.
  - intros a k Hne. rewrite staged_insert by done. by rewrite decide_False.
  - simpl. by apply dom_insert_lookup_L.
  - done.
Qed.

Lemma store_writes_one_cell_witness :
  ∃ st1,
    step (_exec_contract_frame 3 demo_world) "A" "sstore counter now"
         (mkFrame [4; 7] 30 ∅) (mkShared (take_snapshot demo_world) [])
      = (st1, Ok (Next (with_stack [4] (charged "SSTORE" (mkFrame [4; 7] 30 ∅))))) ∧
    staged st1 "A" "counter" = Some 7 ∧
    (∀ a k, ¬ (a = "A" ∧ k = "counter") →
            staged st1 a k
            = staged (mkShared (take_snapshot demo_world) []) a k) ∧
    dom (snapshot st1) = dom (take_snapshot demo_world) ∧
    call_trace st1 = [].
Proof.
  refine (store_writes_one_cell _ "A" "sstore counter now" "sstore" "counter"
            ["now"] (mkFrame [4; 7] 30 ∅)
            (mkShared (take_snapshot demo_world) []) [4] 7 ∅ _ _ _ _ _);
    try (vm_compute; reflexivity).
  - change (Text.upper "sstore") with "SSTORE". in_list.
  - vm_compute. discriminate.
Defined.

(** X8. Round trip. [STORE key] followed by [LOAD key] in the same frame
    puts the stored value back on top of the stack and leaves it in the
    staged storage; the two instructions cost the sum of their prices. *)
Theorem store_then_load call addr i1 i2 p1 p2 key m1 m2 fr st s v sto :
  Text.split i1 = p1 :: key :: m1 →
  Text.upper p1 ∈ ["STORE"; "SSTORE"] →
  Text.split i2 = p2 :: key :: m2 →
  Text.upper p2 ∈ ["LOAD"; "SLOAD"] →
  stack fr = s ++ [v] →
  snapshot st !! addr = Some sto →
  cost (Text.upper p1) + cost (Text.upper p2) ≤ gas_remaining fr →
  ∃ fr1 st1 fr2,
    step call addr i1 fr st = (st1, Ok (Next fr1)) ∧
    step call addr i2 fr1 st1 = (st1, Ok (Next fr2)) ∧
    stack fr2 = s ++ [v] ∧
    staged st1 addr key = Some v ∧
    gas_remaining fr2
      = gas_remaining fr - cost (Text.upper p1) - cost (Text.upper p2).
Proof.
  intros Hs1 Hop1 Hs2 Hop2 Hstack Hsto Hg.
  pose proof (cost_nonneg (Text.upper p1)).
  pose proof (cost_nonneg (Text.upper p2)).
  assert (cost (Text.upper p1) ≤ gas_remaining fr) as Hg1 by lia.
  pose proof (step_store_ok call _ _ _ _ _ _ _ _ _ _ Hs1 Hop1 Hstack Hsto Hg1)
    as Hstep1.
  eexists _, _, _. split; [exact Hstep1|].
  rewrite (step_charged _ _ _ _ _ _ _ Hs2) by (simpl; lia).
  rewrite dispatch_load by done. unfold load. cbn [snapshot].
  rewrite lookup_insert_eq, lookup_insert_eq. simpl.
  split; [reflexivity|]. split_and!; [done| |done].
  rewrite staged_insert by done. by rewrite decide_True.
Qed.

Lemma store_then_load_witness :
  ∃ fr1 st1 fr2,
    step (_exec_contract_frame 3 demo_world) "A" "STORE counter"
         (mkFrame [4; 7] 30 ∅) (mkShared (take_snapshot demo_world) [])
      = (st1, Ok (Next fr1)) ∧
    step (_exec_contract_frame 3 demo_world) "A" "LOAD counter" fr1 st1
      = (st1, Ok (Next fr2)) ∧
    stack fr2 = [4] ++ [7] ∧
    staged st1 "A" "counter" = Some 7 ∧
    gas_remaining fr2 = 30 - cost "STORE" - cost "LOAD".
Proof.
  refine (store_then_load _ "A" "STORE counter" "LOAD counter" "STORE" "LOAD"
            "counter" [] [] (mkFrame [4; 7] 30 ∅)
            (mkShared (take_snapshot demo_world) []) [4] 7 ∅ _ _ _ _ _ _ _);
    try (vm_compute; reflexivity).
  - change (Text.upper "STORE") with "STORE". in_list.
  - change (Text.upper "LOAD") with "LOAD". in_list.
  - vm_compute. discriminate.
Defined.

(** X9. [LOAD key] pushes the staged value of the cell, and 0 for a cell
    never written; it changes neither the snapshot nor the trace, so
    reading again gives the same value. Without a key operand it fails
    with a malformed-instruction error. *)
Theorem load_semantics call addr instr p rest fr st sto :
  Text.split instr = p :: rest →
  Text.upper p ∈ ["LOAD"; "SLOAD"] →
  snapshot st !! addr = Some sto →
  cost (Text.upper p) ≤ gas_remaining fr →
  step call addr instr fr st
  = match rest with
    | key :: _ =>
        (st, Ok (Next (push (default 0 (sto !! key))
                            (charged (Text.upper p) fr))))
    | [] => (st, Raise (VMExecutionError LoadMissingKey))
    end ∧
  kind_of LoadMissingKey = MalformedInstruction.
Proof.
  intros Hs Hop Hsto Hg. split; [|done].
  rewrite (step_charged _ _ _ _ _ _ _ Hs Hg).
  destruct rest as [|key more].
  - elem_cases Hop; reflexivity.
  - rewrite dispatch_load by done. unfold load. by rewrite Hsto.
Qed.

Lemma load_semantics_witness :
  step (_exec_contract_frame 3 demo_world) "A" "load nothing"
       (mkFrame [4] 30 ∅) (mkShared (take_snapshot demo_world) [])
  = (mkShared (take_snapshot demo_world) [],
     Ok (Next (mkFrame [4; 0] 25 (bump "LOAD" 1 ∅)))).
Proof.
  refine (proj1 (load_semantics _ "A" "load nothing" "load" ["nothing"]
                   (mkFrame [4] 30 ∅)
                   (mkShared (take_snapshot demo_world) []) ∅ _ _ _ _));
    try (vm_compute; reflexivity).
  - change (Text.upper "load") with "LOAD". in_list.
  - vm_compute. discriminate.
Defined.

(** X10. The checks of [STORE] come in the order of the source: a missing
    key operand is reported even when the stack is empty, and an empty
    stack is reported before the snapshot is touched. *)
Theorem store_errors call addr instr p rest fr st :
  Text.split instr = p :: rest →
  Text.upper p ∈ ["STORE"; "SSTORE"] →
  cost (Text.upper p) ≤ gas_remaining fr →
  (rest = [] →
     step call addr instr fr st = (st, Raise (VMExecutionError StoreMissingKey))) ∧
  (rest ≠ [] → stack fr = [] →
     step call addr instr fr st = (st, Raise (VMExecutionError StoreNeedsValue))) ∧
  kind_of StoreMissingKey = MalformedInstruction ∧
  kind_of StoreNeedsValue = StackUnderflow.
Proof.
  intros Hs Hop Hg. rewrite (step_charged _ _ _ _ _ _ _ Hs Hg).
  split_and!; try done.
  - intros ->. elem_cases Hop; reflexivity.
  - intros Hrest Hstack. destruct rest as [|key more]; [done|].
    rewrite dispatch_store by done. unfold store. simpl.
    by rewrite Hstack.
Qed.

Lemma store_errors_witness :
  step (_exec_contract_frame 3 demo_world) "A" "STORE"
       (mkFrame [] 30 ∅) (mkShared (take_snapshot demo_world) [])
  = (mkShared (take_snapshot demo_world) [],
     Raise (VMExecutionError StoreMissingKey)).
Proof.
  refine (proj1 (store_errors _ "A" "STORE" "STORE" [] (mkFrame [] 30 ∅)
                   (mkShared (take_snapshot demo_world) []) _ _ _) eq_refl).
  - reflexivity.
  - change (Text.upper "STORE") with "STORE". in_list.
  - vm_compute. discriminate.
Defined.

(** X11. [PUSH n] puts the integer literal on top of the stack and [POP]
    takes the top off, so a [PUSH] followed by a [POP] restores the
    stack at the price of 2 gas; neither touches the shared state. *)
Theorem push_then_pop call addr i1 i2 p1 lit m1 p2 m2 fr st n :
  Text.split i1 = p1 :: lit :: m1 →
  Text.upper p1 = "PUSH" →
  Text.int lit = Some n →
  Text.split i2 = p2 :: m2 →
  Text.upper p2 = "POP" →
  2 ≤ gas_remaining fr →
  ∃ fr1 fr2,
    step call addr i1 fr st = (st, Ok (Next fr1)) ∧
    stack fr1 = stack fr ++ [n] ∧
    step call addr i2 fr1 st = (st, Ok (Next fr2)) ∧
    stack fr2 = stack fr ∧
    gas_remaining fr2 = gas_remaining fr - 2.
Proof.
  intros Hs1 Hop1 Hlit Hs2 Hop2 Hg.
  assert (cost "PUSH" = 1) as HcPush by reflexivity.
  assert (cost "POP" = 1) as HcPop by reflexivity.
  set (fr1 := push n (charged "PUSH" fr)).
  assert (gas_remaining fr1 = gas_remaining fr - 1) as Hg1.
  { unfold fr1, push, charged. cbn [gas_remaining]. by rewrite HcPush. }
  exists fr1, (with_stack (stack fr) (charged "POP" fr1)).
  split_and!.
  - rewrite (step_charged _ _ _ _ _ _ _ Hs1) by (rewrite Hop1, HcPush; lia).
    rewrite Hop1. unfold dispatch. rewrite decide_True by done.
    by rewrite Hlit.
  - done.
  - rewrite (step_charged _ _ _ _ _ _ _ Hs2) by (rewrite Hop2, HcPop; lia).
    rewrite Hop2. unfold dispatch. rewrite decide_False by done.
    rewrite decide_True by done.
    unfold fr1 at 1, push, charged. cbn [stack]. by rewrite pop_snoc.
  - done.
  - unfold with_stack, charged. cbn [gas_remaining]. rewrite HcPop. lia.
Qed.

Lemma push_then_pop_witness :
  ∃ fr1 fr2,
    step (_exec_contract_frame 3 demo_world) "A" "push -1_000"
         (mkFrame [4] 30 ∅) (mkShared ∅ [])
      = (mkShared ∅ [], Ok (Next fr1)) ∧
    stack fr1 = [4] ++ [-1000] ∧
    step (_exec_contract_frame 3 demo_world) "A" "pop" fr1 (mkShared ∅ [])
      = (mkShared ∅ [], Ok (Next fr2)) ∧
    stack fr2 = [4] ∧
    gas_remaining fr2 = 30 - 2.
Proof.
  refine (push_then_pop _ "A" "push -1_000" "pop" "push" "-1_000" [] "pop" []
            (mkFrame [4] 30 ∅) (mkShared ∅ []) (-1000) _ _ _ _ _ _);
    try (vm_compute; reflexivity).
  vm_compute. discriminate.
Defined.

(** X12. [PUSH] without an operand fails with a malformed-instruction
    error, and [POP] on an empty stack with a stack underflow; both
    after the charge, and without touching the shared state. *)
Theorem push_pop_errors call addr instr p fr st :
  Text.split instr = [p] →
  1 ≤ gas_remaining fr →
  (Text.upper p = "PUSH" →
     step call addr instr fr st
       = (st, Raise (VMExecutionError PushMissingArgument))) ∧
  (Text.upper p = "POP" → stack fr = [] →
     step call addr instr fr st
       = (st, Raise (VMExecutionError PopFromEmptyStack))) ∧
  kind_of PushMissingArgument = MalformedInstruction ∧
  kind_of PopFromEmptyStack = StackUnderflow.
Proof.
  intros Hs Hg. split_and!; try done.
  - intros Hop. rewrite (step_charged _ _ _ _ _ _ _ Hs)
      by (rewrite Hop; change (cost "PUSH") with 1; lia).
    by rewrite Hop.
  - intros Hop Hstack. rewrite (step_charged _ _ _ _ _ _ _ Hs)
      by (rewrite Hop; change (cost "POP") with 1; lia).
    rewrite Hop. unfold dispatch. rewrite decide_False by done.
    rewrite decide_True by done. simpl. by rewrite Hstack.
Qed.

Lemma push_pop_errors_witness :
  step (_exec_contract_frame 3 demo_world) "A" " Pop "
       (mkFrame [] 30 ∅) (mkShared ∅ [])
  = (mkShared ∅ [], Raise (VMExecutionError PopFromEmptyStack)).
Proof.
  refine (proj1 (proj2 (push_pop_errors _ "A" " Pop " "Pop" (mkFrame [] 30 ∅)
                          (mkShared ∅ []) _ _)) eq_refl eq_refl).
  - reflexivity.
  - vm_compute. discriminate.
Defined.

(** X13. [LOG] takes the top of the stack and appends one log event,
    tagged with the running contract, to the shared trace; the snapshot
    is untouched. On an empty stack it fails with a stack underflow and
    records nothing. *)
Theorem log_semantics call addr instr p rest fr st :
  Text.split instr = p :: rest →
  Text.upper p = "LOG" →
  1 ≤ gas_remaining fr →
  (∀ s v, stack fr = s ++ [v] →
     step call addr instr fr st
       = (mkShared (snapshot st) (call_trace st ++ [LogEvent addr v]),
          Ok (Next (with_stack s (charged "LOG" fr))))) ∧
  (stack fr = [] →
     step call addr instr fr st = (st, Raise (VMExecutionError LogEmptyStack))) ∧
  kind_of LogEmptyStack = StackUnderflow.
Proof.
  intros Hs Hop Hg.
  rewrite (step_charged _ _ _ _ _ _ _ Hs)
    by (rewrite Hop; change (cost "LOG") with 1; lia).
  rewrite Hop. change (dispatch call addr "LOG" (p :: rest) (charged "LOG" fr) st)
    with (log addr (charged "LOG" fr) st).
  unfold log. simpl. split_and!; try done.
  - intros s v ->. by rewrite pop_snoc.
  - by intros ->.
Qed.

Lemma log_semantics_witness :
  step (_exec_contract_frame 3 demo_world) "A" "log"
       (mkFrame [4; 7] 30 ∅) (mkShared ∅ [])
  = (mkShared ∅ [LogEvent "A" 7],
     Ok (Next (mkFrame [4] 29 (bump "LOG" 1 ∅)))).
Proof.
  refine (proj1 (log_semantics _ "A" "log" "log" [] (mkFrame [4; 7] 30 ∅)
                   (mkShared ∅ []) _ _ _) [4] 7 _);
    try (vm_compute; reflexivity).
  vm_compute. discriminate.
Defined.

(** ** The loop of a frame *)

Lemma dispatch_RETURN call addr parts fr st :
  dispatch call addr "RETURN" parts fr st
  = (let (r, s') := pop_or_zero (stack fr) in
     ret (Return r (with_stack s' fr))) st.
Proof. reflexivity. Qed.

Lemma run_all_blank call addr lines fr st :
  Forall blank lines →
  run call addr lines fr st
  = (st, Ok ((pop_or_zero (stack fr)).1,
             with_stack (pop_or_zero (stack fr)).2 fr)).
Proof.
  induction 1 as [|line rest Hb _ IH]; simpl.
  - by destruct (pop_or_zero (stack fr)).
  - by rewrite decide_True.
Qed.

(** X14. Blank lines are free and change nothing: a frame runs its code
    exactly as it runs the code with the blank lines taken out. *)
Theorem run_skips_blank_lines call addr lines fr st :
  run call addr lines fr st
  = run call addr (filter (λ l, ¬ blank l) lines) fr st.
Proof.
  revert fr st. induction lines as [|line rest IH]; intros fr st; [done|].
  destruct (decide (blank line)) as [Hb|Hb].
  - rewrite filter_cons_False by (by intros ?). simpl.
    rewrite decide_True by done. apply IH.
  - rewrite filter_cons_True by done. simpl.
    rewrite !decide_False by done.
    destruct (step call addr (Text.strip line) fr st) as [st1 [[fr1|r fr1]|e]];
      [apply IH|done|done].
Qed.

(** X15. [RETURN] ends the frame at once: it costs nothing, yields the top
    of the stack, or 0 when the stack is empty, and the lines after it
    are never run, whatever they hold. *)
Theorem return_stops_the_frame call addr line p ps rest fr st :
  Text.split line = p :: ps →
  Text.upper p = "RETURN" →
  0 ≤ gas_remaining fr →
  run call addr (line :: rest) fr st
  = (st, Ok ((pop_or_zero (stack fr)).1,
             mkFrame (pop_or_zero (stack fr)).2 (gas_remaining fr)
                     (bump "RETURN" 1 (op_counts fr)))).
Proof.
  intros Hs Hop Hg. simpl.
  rewrite decide_False by (by eapply tokens_not_blank).
  assert (cost "RETURN" = 0) as Hc by reflexivity.
  rewrite <- split_strip in Hs.
  rewrite (step_charged _ _ _ _ _ _ _ Hs) by (rewrite Hop, Hc; done).
  rewrite Hop, dispatch_RETURN.
  unfold charged. cbn [stack]. destruct (pop_or_zero (stack fr)) as [r s'].
  unfold_m. unfold with_stack. cbn [gas_remaining op_counts fst snd].
  rewrite Hc. by rewrite Z.sub_0_r.
Qed.

Lemma return_stops_the_frame_witness :
  run (_exec_contract_frame 3 demo_world) "A" ["  return  "; "PUSH abc"; "JUMP"]
      (mkFrame [4; 7] 0 ∅) (mkShared ∅ [])
  = (mkShared ∅ [], Ok (7, mkFrame [4] 0 (bump "RETURN" 1 ∅))).
Proof.
  refine (return_stops_the_frame _ "A" "  return  " "return" []
            ["PUSH abc"; "JUMP"] (mkFrame [4; 7] 0 ∅) (mkShared ∅ []) _ _ _);
    try (vm_compute; reflexivity).
  vm_compute. discriminate.
Defined.

(** X16. A frame that reaches the end of its code without a [RETURN]
    returns the top of the stack, or 0 when the stack is empty; this
    holds in particular for a contract with no code at all, which uses no
    gas and touches nothing. *)
Theorem falling_off_the_end call w addr caller g stk st c :
  w !! addr = Some c →
  is_Some (snapshot st !! addr) →
  Forall blank (code c) →
  frame_body call w addr caller g stk st
  = (st, Ok ((pop_or_zero stk).1, 0, ∅)) ∧
  (stk = [] → (pop_or_zero stk).1 = 0) ∧
  (∀ s v, stk = s ++ [v] → (pop_or_zero stk).1 = v).
Proof.
  intros Hw [sto Hsto] Hblank. split_and!.
  - unfold frame_body. rewrite Hw, Hsto. unfold_m.
    rewrite run_all_blank by done. simpl. by rewrite Z.sub_diag.
  - by intros ->.
  - intros s v ->. unfold pop_or_zero. by rewrite pop_snoc.
Qed.

Lemma falling_off_the_end_witness :
  frame_body (_exec_contract_frame 3 negative_gas_world) negative_gas_world
             "A0" "B0" 50 [4; 7] (mkShared (take_snapshot negative_gas_world) [])
  = (mkShared (take_snapshot negative_gas_world) [], Ok (7, 0, ∅)).
Proof.
  refine (proj1 (falling_off_the_end _ negative_gas_world "A0" "B0" 50 [4; 7]
                   (mkShared (take_snapshot negative_gas_world) [])
                   (mkContract "A0" [] ∅) _ _ _)).
  - vm_compute. reflexivity.
  - exists ∅. vm_compute. reflexivity.
  - constructor.
Defined.

(** ** Gas is the price of the opcodes counted *)

Lemma total_cost_insert (m : gmap string Z) i x :
  m !! i = None → total_cost (<[i := x]> m) = total_cost m + cost i * x.
Proof.
  intros Hi. unfold total_cost. rewrite map_fold_insert_L; [done| |done].
  intros. lia.
Qed.

Lemma total_cost_bump op v d :
  total_cost (bump op v d) = total_cost d + cost op * v.
Proof.
  unfold bump. destruct (d !! op) as [n|] eqn:Hop; simpl.
  - rewrite <- (insert_delete_eq d op (n + v)).
    rewrite <- (insert_delete_id d op n) at 2 by done.
    rewrite !total_cost_insert by apply lookup_delete_eq. lia.
  - rewrite total_cost_insert by done. lia.
Qed.

Lemma total_cost_merge d c :
  total_cost (merge_counts d c) = total_cost d + total_cost c.
Proof.
  unfold merge_counts.
  induction c as [|i x m Hi Hfirst IH] using map_first_key_ind.
  - rewrite map_fold_empty. unfold total_cost at 3. rewrite map_fold_empty. lia.
  - rewrite map_fold_insert_first_key by done.
    rewrite total_cost_bump, IH, total_cost_insert by done. lia.
Qed.

Lemma total_cost_empty : total_cost ∅ = 0.
Proof. unfold total_cost. by rewrite map_fold_empty. Qed.

Lemma dispatch_local_counts call addr op parts fr st st' fl :
  op ≠ "CALL" →
  dispatch call addr op parts fr st = (st', Ok fl) →
  gas_remaining (frame_of fl) = gas_remaining fr ∧
  op_counts (frame_of fl) = op_counts fr.
Proof.
  intros Hop. unfold dispatch, arith, load, store, log. unfold_m.
  intros H.
  repeat (case_decide || case_match); simplify_eq/=; done.
Qed.

(** What is asked of the callee for the books to balance. *)
Section accounting.
Variable call : FrameFn.
Hypothesis Hcall : ∀ callee caller a args st st' r u c,
  call callee caller a args st = (st', Ok (r, u, c)) → u = total_cost c.

Lemma step_accounting addr instr fr st st' fl :
  step call addr instr fr st = (st', Ok fl) →
  gas_remaining fr - gas_remaining (frame_of fl)
  = total_cost (op_counts (frame_of fl)) - total_cost (op_counts fr).
Proof.
  unfold step. destruct (Text.split instr) as [|p0 ps]; [done|].
  destruct (charge (Text.upper p0) fr) as [fr1|e] eqn:Hc; [|done].
  apply charge_Ok in Hc as (_ & Hg & Hcounts & _).
  assert (total_cost (op_counts fr1)
          = total_cost (op_counts fr) + cost (Text.upper p0)) as Ht.
  { rewrite Hcounts, total_cost_bump. lia. }
  destruct (decide (Text.upper p0 = "CALL")) as [Hop|Hop].
  - rewrite Hop, dispatch_CALL.
    intros [(_ & Hres)|(callee & a & args & stc & resc & _ & Hc & Hafter)]%call_op_cases.
    { by destruct Hres as [?|[?|[?|?]]]. }
    destruct resc as [[[r u] c]|e]; simpl in Hafter; [|by destruct Hafter].
    destruct Hafter as (_ & s' & [= ->]). simpl.
    apply Hcall in Hc as ->. rewrite total_cost_merge. lia.
  - intros [Hg' Hc']%dispatch_local_counts; [|done].
    rewrite Hg', Hc'. lia.
Qed.

Lemma run_accounting addr lines fr st st' r fr' :
  run call addr lines fr st = (st', Ok (r, fr')) →
  gas_remaining fr - gas_remaining fr'
  = total_cost (op_counts fr') - total_cost (op_counts fr).
Proof.
  revert fr st. induction lines as [|line rest IH]; intros fr st; simpl.
  - destruct (pop_or_zero (stack fr)). unfold_m. intros [= <- <- <-]. simpl. lia.
  - case_decide; [apply IH|].
    destruct (step call addr (Text.strip line) fr st) as [st1 [fl|e]] eqn:Hs;
      [|done].
    apply step_accounting in Hs.
    destruct fl as [fr1|r1 fr1]; simpl in Hs.
    + intros Hrun%IH. lia.
    + intros [= <- <- <-]. lia.
Qed.

Lemma frame_body_accounting w addr caller g stk st st' r u c :
  frame_body call w addr caller g stk st = (st', Ok (r, u, c)) →
  u = total_cost c.
Proof.
  unfold frame_body. destruct (w !! addr) as [ct|]; [|done].
  destruct (snapshot st !! addr); [|done]. unfold_m.
  destruct (run call addr (code ct) (mkFrame stk g ∅) st)
    as [st1 [[r1 fr1]|e]] eqn:Hrun; [|done].
  apply run_accounting in Hrun. simpl in Hrun.
  intros [= <- <- <- <-]. rewrite total_cost_empty in Hrun. lia.
Qed.
End accounting.

Lemma exec_frame_accounting fuel w addr caller g stk st st' r u c :
  _exec_contract_frame fuel w addr caller g stk st = (st', Ok (r, u, c)) →
  u = total_cost c.
Proof.
  revert addr caller g stk st st' r u c.
  induction fuel as [|fuel IH]; intros *; simpl; [done|].
  by apply frame_body_accounting.
Qed.

(** X17. The books balance. The gas a successful transaction reports is
    the price of the opcodes it counted, nested calls included:
    [gas_used] is the sum over [op_counts] of count times [OPCOST]
    (1 for the names missing from the table, [SLOAD] and [SSTORE]). *)
Theorem gas_used_is_price_of_op_counts w to_addr caller gas_limit args t0 t1 r :
  (execute_transaction w to_addr caller gas_limit args t0 t1).2 = Ok r →
  success r = true →
  gas_used r = total_cost (res_op_counts r).
Proof.
  unfold execute_transaction, execute_transaction_at.
  destruct (_exec_contract_frame _ _ _ _ _ _ _) as [st [[[v u] c]|e]] eqn:E;
    simpl.
  - intros [= <-] _. simpl. apply exec_frame_accounting in E as ->.
    by rewrite total_cost_merge, total_cost_empty.
  - destruct e; intros [= <-]; done.
Qed.

Lemma gas_used_is_price_of_op_counts_witness :
  let r := mkResult true (Some 20) 75
             (list_to_map [("PUSH", 2); ("CALL", 1); ("MUL", 1); ("ADD", 1);
                           ("STORE", 2); ("LOAD", 3); ("RETURN", 2)])
             [CallEvent "B" "A" 200 33 2] 1 in
  gas_used r = total_cost (res_op_counts r).
Proof.
  intros r.
  apply (gas_used_is_price_of_op_counts demo_world "B" "bob" 800 [] 0 1 r);
    vm_compute; reflexivity.
Defined.

(** ** Committing *)

Lemma set_storage_same c : set_storage c (storage c) = c.
Proof. by destruct c. Qed.

Lemma commit_lookup (w : World) snap a :
  commit w snap !! a
  = (λ c, set_storage c (default (storage c) (snap !! a))) <$> w !! a.
Proof.
  unfold commit. revert a.
  apply (map_fold_weak_ind
           (λ r m, ∀ a, r !! a
              = (λ c, set_storage c (default (storage c) (m !! a))) <$> w !! a)).
  - intros a. rewrite lookup_empty. simpl.
    destruct (w !! a) as [c|]; simpl; [|done]. by rewrite set_storage_same.
  - intros addr sto m r Hm IH a. rewrite lookup_alter.
    destruct (decide (addr = a)) as [->|Hne].
    + rewrite IH, lookup_insert_eq. by destruct (w !! a).
    + by rewrite IH, lookup_insert_ne.
Qed.

Lemma take_snapshot_commit (w : World) snap :
  dom snap = dom w → take_snapshot (commit w snap) = snap.
Proof.
  intros Hdom. apply map_eq. intros a. unfold take_snapshot.
  rewrite lookup_fmap, commit_lookup.
  destruct (w !! a) as [c|] eqn:Hw; simpl.
  - assert (is_Some (snap !! a)) as [sto Hsto].
    { apply elem_of_dom. rewrite Hdom. apply elem_of_dom. eauto. }
    by rewrite Hsto.
  - symmetry. apply not_elem_of_dom. rewrite Hdom. by apply not_elem_of_dom.
Qed.

(** X18. Full commit. After a successful transaction the storage of every
    contract is exactly what the staged snapshot held when the root frame
    returned: nothing staged is lost and nothing else is written. *)
Theorem success_commits_the_snapshot w to_addr caller gas_limit args t0 t1 r :
  (execute_transaction w to_addr caller gas_limit args t0 t1).2 = Ok r →
  success r = true →
  ∃ st out,
    _exec_contract_frame (depth_bound gas_limit) w to_addr caller gas_limit
      args (mkShared (take_snapshot w) []) = (st, Ok out) ∧
    storage_snapshot (execute_transaction w to_addr caller gas_limit args t0 t1).1
      = snapshot st.
Proof.
  unfold execute_transaction, execute_transaction_at.
  destruct (_exec_contract_frame _ _ _ _ _ _ _) as [st [[[v u] c]|e]] eqn:E;
    simpl.
  - intros _ _. exists st, (v, u, c). split; [done|].
    apply exec_frame_spec in E as (_ & Hdom & _). simpl in Hdom.
    apply take_snapshot_commit. by rewrite Hdom, take_snapshot_dom.
  - destruct e; intros [= <-]; done.
Qed.

Lemma success_commits_the_snapshot_witness :
  ∃ st out,
    _exec_contract_frame (depth_bound 800) demo_world "B" "bob" 800 []
      (mkShared (take_snapshot demo_world) []) = (st, Ok out) ∧
    storage_snapshot (execute_transaction demo_world "B" "bob" 800 [] 0 1).1
      = snapshot st.
Proof.
  apply (success_commits_the_snapshot demo_world "B" "bob" 800 [] 0 1
           (mkResult true (Some 20) 75
              (list_to_map [("PUSH", 2); ("CALL", 1); ("MUL", 1); ("ADD", 1);
                            ("STORE", 2); ("LOAD", 3); ("RETURN", 2)])
              [CallEvent "B" "A" 200 33 2] 1));
    vm_compute; reflexivity.
Defined.

(** X19. Contracts are immutable but for their storage. Whatever a
    transaction does, and however it ends, every contract keeps its
    address and its code, no contract appears and none disappears. *)
Theorem transactions_keep_code w to_addr caller gas_limit args t0 t1 a :
  let w' := (execute_transaction w to_addr caller gas_limit args t0 t1).1 in
  code <$> (w' !! a) = code <$> (w !! a) ∧
  address <$> (w' !! a) = address <$> (w !! a).
Proof.
  unfold execute_transaction, execute_transaction_at.
  destruct (_exec_contract_frame _ _ _ _ _ _ _) as [st [[[v u] c]|e]]; simpl.
  - rewrite commit_lookup. by destruct (w !! a).
  - by destruct e.
Qed.

(** ** Checks of [CALL] *)

(** X20. The checks of [CALL] come in the order of the source, and all
    come before the callee is looked up: fewer than three operands is a
    malformed instruction; then a gas amount above what is left after
    the charge of 10 is [InsufficientGasForCall], even when the stack is
    too short or the callee is not deployed; then a stack shorter than
    the argument count is [InsufficientArguments]. None of them touches
    the shared state. *)
Theorem call_checks call addr instr p rest fr st :
  Text.split instr = p :: rest →
  Text.upper p = "CALL" →
  10 ≤ gas_remaining fr →
  ((length rest < 3)%nat →
     step call addr instr fr st
       = (st, Raise (VMExecutionError CallNeedsOperands))) ∧
  (∀ callee p2 p3 more gas_amount nargs,
     rest = callee :: p2 :: p3 :: more →
     Text.int p2 = Some gas_amount →
     Text.int p3 = Some nargs →
     (gas_remaining fr - 10 < gas_amount →
        step call addr instr fr st
          = (st, Raise (VMExecutionError InsufficientGasForCallMsg))) ∧
     (gas_amount ≤ gas_remaining fr - 10 →
      Z.of_nat (length (stack fr)) < nargs →
        step call addr instr fr st
          = (st, Raise (VMExecutionError NotEnoughArgsForCall)))) ∧
  kind_of CallNeedsOperands = MalformedInstruction ∧
  kind_of InsufficientGasForCallMsg = InsufficientGasForCall ∧
  kind_of NotEnoughArgsForCall = InsufficientArguments.
Proof.
  intros Hs Hop Hg.
  assert (step call addr instr fr st
          = call_op call addr (p :: rest) (charged "CALL" fr) st) as ->.
  { rewrite (step_charged _ _ _ _ _ _ _ Hs) by (rewrite Hop, cost_CALL; done).
    by rewrite Hop. }
  split_and!; try done.
  - intros Hlen. unfold call_op.
    destruct rest as [|? [|? [|? ?]]]; simpl in Hlen; try done; lia.
  - intros callee p2 p3 more a n -> Hp2 Hp3.
    unfold call_op. rewrite Hp2, Hp3. unfold charged. cbn [gas_remaining stack].
    rewrite cost_CALL. split.
    + intros Ha. by rewrite decide_True by lia.
    + intros Ha Hn. rewrite decide_False by lia. by rewrite decide_True by lia.
Qed.

Lemma call_checks_witness :
  step (_exec_contract_frame 3 demo_world) "B" "CALL nobody 200 5"
       (mkFrame [] 100 ∅) (mkShared (take_snapshot demo_world) [])
  = (mkShared (take_snapshot demo_world) [],
     Raise (VMExecutionError InsufficientGasForCallMsg)).
Proof.
  refine (proj1 (proj1 (proj2 (call_checks _ "B" "CALL nobody 200 5" "CALL"
                                 ["nobody"; "200"; "5"] (mkFrame [] 100 ∅)
                                 (mkShared (take_snapshot demo_world) [])
                                 _ _ _))
                   "nobody" "200" "5" [] 200 5 eq_refl _ _) _);
    first [vm_compute; reflexivity | vm_compute; discriminate].
Defined.

(** X21. An argument count of zero or less takes nothing off the stack:
    the callee starts on an empty stack, and the value it returns is
    pushed on top of the caller's whole stack. *)
Theorem call_without_arguments call addr instr p0 callee p2 p3 more fr st
    gas_amount nargs :
  Text.split instr = p0 :: callee :: p2 :: p3 :: more →
  Text.upper p0 = "CALL" →
  Text.int p2 = Some gas_amount →
  Text.int p3 = Some nargs →
  nargs ≤ 0 →
  10 ≤ gas_remaining fr →
  gas_amount ≤ gas_remaining fr - 10 →
  step call addr instr fr st =
  match call callee addr gas_amount [] st with
  | (stc, Ok (r, u, c)) =>
      (mkShared (snapshot stc)
                (call_trace stc ++ [CallEvent addr callee gas_amount u r]),
       Ok (Next (mkFrame (stack fr ++ [r])
                         (gas_remaining fr - 10 - gas_amount + (gas_amount - u))
                         (merge_counts (bump "CALL" 1 (op_counts fr)) c))))
  | (stc, Raise e) => (stc, Raise e)
  end.
Proof.
  intros Hs Hop Hp2 Hp3 Hn Hg Ha.
  rewrite (step_CALL call addr instr _ _ _ _ _ fr st _ _ Hs Hop Hp2 Hp3 Hg Ha)
    by lia.
  replace (Z.to_nat nargs) with 0%nat by lia.
  by rewrite Nat.sub_0_r, drop_all, firstn_all.
Qed.

Lemma call_without_arguments_witness :
  step (_exec_contract_frame 3 negative_gas_world) "B0" "CALL A0 5 -2"
       (mkFrame [4; 7] 100 ∅) (mkShared (take_snapshot negative_gas_world) [])
  = (mkShared (take_snapshot negative_gas_world) [CallEvent "B0" "A0" 5 0 0],
     Ok (Next (mkFrame [4; 7; 0] 90 (bump "CALL" 1 ∅)))).
Proof.
  refine (eq_trans (call_without_arguments _ "B0" "CALL A0 5 -2" "CALL" "A0"
                      "5" "-2" [] (mkFrame [4; 7] 100 ∅)
                      (mkShared (take_snapshot negative_gas_world) []) 5 (-2)
                      _ _ _ _ _ _ _) _);
    first [vm_compute; reflexivity | vm_compute; discriminate].
Defined.

(** ** Aliases *)

(** X22. [SSTORE] and [SLOAD] do what [STORE] and [LOAD] do to the stack
    and the storage, but they are missing from [OPCOST]: each is charged
    the default 1, not 20 or 5, and counted under its own name. *)
Theorem aliases_cost_one call addr i1 i2 p1 p2 key m1 m2 fr st s v sto :
  Text.split i1 = p1 :: key :: m1 →
  Text.split i2 = p2 :: key :: m2 →
  stack fr = s ++ [v] →
  snapshot st !! addr = Some sto →
  20 ≤ gas_remaining fr →
  let stored g c :=
    (mkShared (<[addr := <[key := v]> sto]> (snapshot st)) (call_trace st),
     Ok (Next (mkFrame s (gas_remaining fr - g) (bump c 1 (op_counts fr))))) in
  let loaded g c :=
    (st, Ok (Next (mkFrame (stack fr ++ [default 0 (sto !! key)])
                           (gas_remaining fr - g)
                           (bump c 1 (op_counts fr))))) in
  (Text.upper p1 = "STORE" → step call addr i1 fr st = stored 20 "STORE") ∧
  (Text.upper p1 = "SSTORE" → step call addr i1 fr st = stored 1 "SSTORE") ∧
  (Text.upper p2 = "LOAD" → step call addr i2 fr st = loaded 5 "LOAD") ∧
  (Text.upper p2 = "SLOAD" → step call addr i2 fr st = loaded 1 "SLOAD").
Proof.
  intros Hs1 Hs2 Hstack Hsto Hg stored loaded.
  split_and!; intros Hop.
  - rewrite (step_store_ok call _ _ _ _ _ _ _ _ _ _ Hs1) by
      first [done | by rewrite Hop; in_list
            | rewrite Hop; change (cost "STORE") with 20; lia].
    by rewrite Hop.
  - rewrite (step_store_ok call _ _ _ _ _ _ _ _ _ _ Hs1) by
      first [done | by rewrite Hop; in_list
            | rewrite Hop; change (cost "SSTORE") with 1; lia].
    by rewrite Hop.
  - rewrite (step_charged _ _ _ _ _ _ _ Hs2)
      by (rewrite Hop; change (cost "LOAD") with 5; lia).
    rewrite Hop. change (dispatch call addr "LOAD" (p2 :: key :: m2) ?f st)
      with (load addr key (charged "LOAD" fr) st).
    unfold load. by rewrite Hsto.
  - rewrite (step_charged _ _ _ _ _ _ _ Hs2)
      by (rewrite Hop; change (cost "SLOAD") with 1; lia).
    rewrite Hop. change (dispatch call addr "SLOAD" (p2 :: key :: m2) ?f st)
      with (load addr key (charged "SLOAD" fr) st).
    unfold load. by rewrite Hsto.
Qed.

Lemma aliases_cost_one_witness :
  step (_exec_contract_frame 3 demo_world) "A" "sstore counter"
       (mkFrame [4; 7] 30 ∅) (mkShared (take_snapshot demo_world) [])
  = (mkShared (<["A" := <["counter" := 7]> ∅]> (take_snapshot demo_world)) [],
     Ok (Next (mkFrame [4] (30 - 1) (bump "SSTORE" 1 ∅)))).
Proof.
  refine (proj1 (proj2 (aliases_cost_one _ "A" "sstore counter" "sload counter"
                          "sstore" "sload" "counter" [] []
                          (mkFrame [4; 7] 30 ∅)
                          (mkShared (take_snapshot demo_world) []) [4] 7 ∅
                          _ _ _ _ _)) _);
    first [vm_compute; reflexivity | vm_compute; discriminate].
Defined.

(** ** What every result guarantees *)

(** X23. A returned record never reports more gas than the limit, nor a
    negative amount, when the limit is not negative; and in the trace of
    any record, of a failed transaction too, a call event never reports
    negative gas, nor more than a non-negative provision. *)
Theorem reported_gas_within_limit w to_addr caller gas_limit args t0 t1 r :
  0 ≤ gas_limit →
  (execute_transaction w to_addr caller gas_limit args t0 t1).2 = Ok r →
  0 ≤ gas_used r ≤ gas_limit ∧
  (∀ caller' callee provided used rv,
      CallEvent caller' callee provided used rv ∈ res_call_trace r →
      0 ≤ used ∧ (0 ≤ provided → used ≤ provided)).
Proof.
  intros Hlim. unfold execute_transaction, execute_transaction_at.
  destruct (_exec_contract_frame _ _ _ _ _ _ _) as [st res] eqn:E.
  apply exec_frame_spec in E as ((new & Hnew & Hok) & _ & Hgas & _).
  simpl in Hnew. subst new.
  assert (∀ caller' callee provided used rv,
      CallEvent caller' callee provided used rv ∈ call_trace st →
      0 ≤ used ∧ (0 ≤ provided → used ≤ provided)) as Hev.
  { intros * Hin. rewrite Forall_forall in Hok. apply Hok in Hin.
    simpl in Hin. lia. }
  destruct res as [[[v u] c]|e]; simpl.
  - intros [= <-]. simpl. split; [|done].
    specialize (Hgas _ _ _ eq_refl). lia.
  - destruct e; intros [= <-]; simpl. split; [lia|done].
Qed.

Lemma reported_gas_within_limit_witness :
  let r := mkResult false None 500 ∅
             [CallEvent "F" "A" 200 33 2; LogEvent "F" 2] 1 in
  0 ≤ gas_used r ≤ 500 ∧
  (∀ caller' callee provided used rv,
      CallEvent caller' callee provided used rv ∈ res_call_trace r →
      0 ≤ used ∧ (0 ≤ provided → used ≤ provided)).
Proof.
  intros r.
  apply (reported_gas_within_limit logging_world "F" "eve" 500 [] 0 1 r);
    [lia | vm_compute; reflexivity].
Defined.

(** X24. Gas bounds the nesting of calls. Every [CALL] costs its frame 10
    before it hands over at most what is left, so a transaction with gas
    limit [g] never nests deeper than [g + 1] frames: any deeper native
    stack gives the same outcome, and the recursion always ends. *)
Theorem nesting_bounded_by_gas fuel w addr caller g stk st :
  (depth_bound g ≤ fuel)%nat →
  (_exec_contract_frame fuel w addr caller g stk st).2 ≠ Raise RecursionError ∧
  _exec_contract_frame fuel w addr caller g stk st
  = _exec_contract_frame (depth_bound g) w addr caller g stk st.
Proof.
  intros Hfuel. split.
  - by apply frame_fuel_enough.
  - by apply exec_frame_fuel_irrelevant.
Qed.

Lemma nesting_bounded_by_gas_witness :
  (_exec_contract_frame 40 demo_world "B" "bob" 30 []
     (mkShared (take_snapshot demo_world) [])).2 ≠ Raise RecursionError ∧
  _exec_contract_frame 40 demo_world "B" "bob" 30 []
    (mkShared (take_snapshot demo_world) [])
  = _exec_contract_frame (depth_bound 30) demo_world "B" "bob" 30 []
      (mkShared (take_snapshot demo_world) []).
Proof.
  apply (nesting_bounded_by_gas 40 demo_world "B" "bob" 30 []).
  vm_compute. lia.
Defined.

(** X25. What can escape. No subscript of the interpreter ever fails: an
    exception that leaves [execute_transaction] is the [ValueError] of
    [int] on an operand that is not an integer, or the [RecursionError]
    of a nesting deeper than the native stack allows; on a stack of
    [gas_limit + 1] frames or more it is the [ValueError]. The world is
    then as it was. *)
Theorem escaping_exceptions fuel w to_addr caller gas_limit args t0 t1 e :
  (execute_transaction_at fuel w to_addr caller gas_limit args t0 t1).2
    = Raise e →
  (e = ValueError ∨ e = RecursionError) ∧
  ((depth_bound gas_limit ≤ fuel)%nat → e = ValueError) ∧
  (execute_transaction_at fuel w to_addr caller gas_limit args t0 t1).1 = w.
Proof.
  unfold execute_transaction_at.
  destruct (_exec_contract_frame _ _ _ _ _ _ _) as [st res] eqn:E.
  apply exec_frame_spec in E as (_ & _ & _ & Hrec & Hkey & Hidx).
  destruct res as [[[v u] c]|e0]; simpl; [done|].
  destruct e0; intros [= <-]; try done.
  - split_and!; [by left|done|done].
  - exfalso. apply Hkey; [|done]. simpl. by rewrite take_snapshot_dom.
  - split_and!; [by right| |done].
    intros Hfuel. exfalso. apply Hrec; [|done]. unfold depth_bound in Hfuel. lia.
Qed.

Lemma escaping_exceptions_witness :
  (RecursionError = ValueError ∨ RecursionError = RecursionError) ∧
  ((depth_bound 800 ≤ 1)%nat → RecursionError = ValueError) ∧
  (execute_transaction_at 1 demo_world "B" "bob" 800 [] 0 1).1 = demo_world.
Proof.
  apply (escaping_exceptions 1 demo_world "B" "bob" 800 [] 0 1).
  vm_compute. reflexivity.
Defined.

(** ** The driver *)

Lemma execute_books w to_addr caller gas_limit args t0 t1 r :
  (execute_transaction w to_addr caller gas_limit args t0 t1).2 = Ok r →
  if success r then gas_used r = total_cost (res_op_counts r)
  else gas_used r = gas_limit ∧ res_op_counts r = ∅.
Proof.
  unfold execute_transaction, execute_transaction_at.
  destruct (_exec_contract_frame _ _ _ _ _ _ _) as [st [[[v u] c]|e]] eqn:E;
    simpl.
  - intros [= <-]. simpl. apply exec_frame_accounting in E as ->.
    by rewrite total_cost_merge, total_cost_empty.
  - destruct e; intros [= <-]; done.
Qed.

Lemma run_txs_books w txs w' results :
  run_txs w txs = (w', Ok results) →
  Forall (λ r, if success r.2 then gas_used r.2 = total_cost (res_op_counts r.2)
               else gas_used r.2 = tx_gas r.1 ∧ res_op_counts r.2 = ∅) results.
Proof.
  revert w results. induction txs as [|[tx [t0 t1]] rest IH]; intros w results;
    simpl.
  - intros [= _ <-]. constructor.
  - destruct (execute_transaction _ _ _ _ _ _ _) as [w1 [res|e]] eqn:E; [|done].
    destruct (run_txs w1 rest) as [w2 [rs|e]] eqn:Hrest; [|done].
    intros [= <- <-]. constructor; [|by eapply IH].
    simpl. eapply (execute_books w). by rewrite E.
Qed.

Lemma aggregate_from acc (results : list (Tx * ExecutionResult)) :
  total_cost (foldl (λ acc r, merge_counts acc (res_op_counts r.2)) acc results)
  = total_cost acc
    + sum_list ((λ r, total_cost (res_op_counts r.2)) <$> results).
Proof.
  unfold sum_list.
  revert acc. induction results as [|r rs IH]; intros acc;
    rewrite ?fmap_cons; cbn [foldl foldr fmap list_fmap]; [lia|].
  rewrite IH, total_cost_merge. lia.
Qed.

(** X26. The books of the driver. When the loop over the transactions
    runs to its end, the gas figures it collects add up to the price of
    the aggregated opcode counts plus the whole gas limit of every
    transaction that failed. *)
Theorem driver_gas_adds_up w txs w' results :
  run_txs w txs = (w', Ok results) →
  sum_list (gas_used_list results)
  = total_cost (aggregate_op_counts results) + sum_list (failed_limits results).
Proof.
  intros Hbooks%run_txs_books. unfold aggregate_op_counts.
  rewrite aggregate_from, total_cost_empty.
  unfold gas_used_list, failed_limits, sum_list.
  induction Hbooks as [|[tx res] rs Hr _ IH]; [done|].
  rewrite !fmap_cons. cbn [foldr fst snd] in *.
  destruct (success res) eqn:Hres.
  - rewrite Hr, IH.
    replace (List.filter _ ((tx, res) :: rs))
      with (List.filter (λ r : Tx * ExecutionResult, negb (success r.2)) rs)
      by (simpl; by rewrite Hres).
    lia.
  - destruct Hr as [-> ->]. rewrite total_cost_empty, IH.
    replace (List.filter _ ((tx, res) :: rs))
      with ((tx, res)
            :: List.filter (λ r : Tx * ExecutionResult, negb (success r.2)) rs)
      by (simpl; by rewrite Hres).
    rewrite fmap_cons. cbn [foldr fst]. lia.
Qed.

Lemma driver_gas_adds_up_witness :
  let results :=
    [(mkTx "alice" "A" 500 [7],
      mkResult true (Some 7) 33
        (list_to_map [("LOAD", 2); ("ADD", 1); ("STORE", 1); ("RETURN", 1)])
        [] 1);
     (mkTx "eve" "A" 10 [1],
      mkResult false None 10 ∅ [] 1)] in
  sum_list (gas_used_list results)
  = total_cost (aggregate_op_counts results) + sum_list (failed_limits results).
Proof.
  intros results.
  apply (driver_gas_adds_up demo_world
           [(mkTx "alice" "A" 500 [7], (0, 1)%float);
            (mkTx "eve" "A" 10 [1], (1, 2)%float)]
           (<["A" := mkContract "A" contract_a_code {["counter" := 7]}]>
              demo_world) results).
  vm_compute. reflexivity.
Defined.

Lemma aggregate_lookup_from acc (results : list (Tx * ExecutionResult)) op :
  default 0 (foldl (λ acc r, merge_counts acc (res_op_counts r.2)) acc results
             !! op)
  = default 0 (acc !! op)
    + sum_list ((λ r, default 0 (res_op_counts r.2 !! op)) <$> results).
Proof.
  unfold sum_list.
  revert acc. induction results as [|r rs IH]; intros acc;
    rewrite ?fmap_cons; cbn [foldl foldr fmap list_fmap]; [lia|].
  rewrite IH, merge_counts_lookup. lia.
Qed.

(** X27. The aggregated count of an opcode is the sum of its counts in the
    results, an opcode absent from a result counting 0 there. *)
Theorem aggregate_op_counts_sums results op :
  default 0 (aggregate_op_counts results !! op)
  = sum_list ((λ r, default 0 (res_op_counts r.2 !! op)) <$> results).
Proof.
  unfold aggregate_op_counts. rewrite aggregate_lookup_from, lookup_empty.
  simpl. lia.
Qed.

Lemma run_txs_app w txs1 txs2 w1 results1 :
  run_txs w txs1 = (w1, Ok results1) →
  run_txs w (txs1 ++ txs2)
  = match run_txs w1 txs2 with
    | (w2, Ok results2) => (w2, Ok (results1 ++ results2))
    | (w2, Raise e) => (w2, Raise e)
    end.
Proof.
  revert w results1. induction txs1 as [|[tx [t0 t1]] rest IH];
    intros w results1; simpl.
  - intros [= <- <-]. by destruct (run_txs w txs2) as [w2 [rs|e]].
  - destruct (execute_transaction _ _ _ _ _ _ _) as [w' [res|e]]; [|done].
    destruct (run_txs w' rest) as [w'' [rs|e]] eqn:Hrest; [|done].
    intros [= <- <-]. rewrite (IH _ _ Hrest).
    by destruct (run_txs w'' txs2) as [w2 [rs2|e]].
Qed.

(** X28. The driver does not survive an exception. When a transaction
    raises, the loop ends there: the script gets no result list, the
    transactions after it are never run, and the world is as the
    transactions before it left it. *)
Theorem driver_stops_at_exception w txs1 tx t0 t1 txs2 w1 results1 e :
  run_txs w txs1 = (w1, Ok results1) →
  (execute_transaction w1 (tx_to tx) (tx_from tx) (tx_gas tx) (tx_args tx)
     t0 t1).2 = Raise e →
  run_txs w (txs1 ++ (tx, (t0, t1)) :: txs2) = (w1, Raise e).
Proof.
  intros H1 Hraise.
  rewrite (run_txs_app _ _ _ _ _ H1). simpl.
  revert Hraise. unfold execute_transaction, execute_transaction_at.
  destruct (_exec_contract_frame _ _ _ _ _ _ _) as [st [[[v u] c]|e']]; simpl;
    [done|].
  destruct e'; intros [= <-]; done.
Qed.

Lemma driver_stops_at_exception_witness :
  run_txs bad_push_world
    ([] ++ (mkTx "alice" "P" 100 [], (0, 1)%float)
        :: [(mkTx "bob" "P" 100 [], (1, 2)%float)])
  = (bad_push_world, Raise ValueError).
Proof.
  apply (driver_stops_at_exception bad_push_world [] (mkTx "alice" "P" 100 [])
           0 1 [(mkTx "bob" "P" 100 [], (1, 2)%float)] bad_push_world []
           ValueError);
    vm_compute; reflexivity.
Defined.

Lemma execute_trace_ok w to_addr caller gas_limit args t0 t1 r :
  (execute_transaction w to_addr caller gas_limit args t0 t1).2 = Ok r →
  Forall event_ok (res_call_trace r).
Proof.
  unfold execute_transaction, execute_transaction_at.
  destruct (_exec_contract_frame _ _ _ _ _ _ _) as [st res] eqn:E.
  apply exec_frame_spec in E as ((new & Hnew & Hok) & _).
  simpl in Hnew. subst new.
  destruct res as [[[v u] c]|e]; simpl.
  - by intros [= <-].
  - destruct e; intros [= <-]; done.
Qed.

Lemma run_txs_traces_ok w txs w' results :
  run_txs w txs = (w', Ok results) →
  Forall (λ r, Forall event_ok (res_call_trace r.2)) results.
Proof.
  revert w results. induction txs as [|[tx [t0 t1]] rest IH]; intros w results;
    simpl.
  - intros [= _ <-]. constructor.
  - destruct (execute_transaction _ _ _ _ _ _ _) as [w1 [res|e]] eqn:E; [|done].
    destruct (run_txs w1 rest) as [w2 [rs|e]] eqn:Hrest; [|done].
    intros [= <- <-]. constructor; [|by eapply IH].
    simpl. eapply (execute_trace_ok w). by rewrite E.
Qed.

(** X29. The events the driver draws are call events, log events being
    left out, and each of them, whether its transaction succeeded or
    failed, shows a gas figure that is not negative and not above a
    non-negative provision. *)
Theorem driver_call_events w txs w' results e :
  run_txs w txs = (w', Ok results) →
  e ∈ call_events results →
  ∃ caller callee provided used rv,
    e = CallEvent caller callee provided used rv ∧
    0 ≤ used ∧ (0 ≤ provided → used ≤ provided).
Proof.
  intros Hok%run_txs_traces_ok Hin. unfold call_events in Hin.
  apply list_elem_of_In, in_concat in Hin as (evs & Hevs & Hin).
  apply list_elem_of_In, list_elem_of_fmap in Hevs as (r & -> & Hr).
  apply filter_In in Hin as [Hin Hcall].
  rewrite Forall_forall in Hok. apply Hok in Hr.
  rewrite Forall_forall in Hr. apply list_elem_of_In, Hr in Hin.
  destruct e as [|caller callee provided used rv]; [done|].
  simpl in Hin. exists caller, callee, provided, used, rv.
  split; [done|]. lia.
Qed.

Lemma driver_call_events_witness :
  ∃ caller callee provided used rv,
    CallEvent "F" "A" 200 33 2 = CallEvent caller callee provided used rv ∧
    0 ≤ used ∧ (0 ≤ provided → used ≤ provided).
Proof.
  apply (driver_call_events logging_world
           [(mkTx "eve" "F" 500 [], (0, 1)%float)] logging_world
           [(mkTx "eve" "F" 500 [],
             mkResult false None 500 ∅
               [CallEvent "F" "A" 200 33 2; LogEvent "F" 2] 1)]).
  - vm_compute. reflexivity.
  - vm_compute. apply list_elem_of_here.
Defined.
